(** * Snapshot of the alien (DPoS) consensus engine

    A shallow embedding of [consensus/alien/snapshot.go]: the voting
    snapshot, its copy, the header-by-header state transition [apply],
    the in-turn check and the signer queue selection, together with the
    properties of these functions that the design document states and
    further ones that the code shows.

    Conventions of the embedding.
    - [uint64] values are integers in [Z] with the wrap-around modulo
      [2^64] written out ([wrap64]); the conversion [int(x)] of a
      [uint64] is the two's complement reading on a 64-bit platform
      ([toInt64]).
    - A [*big.Int] is a location in a store of integer cells ([Heap]).
      The methods [Add], [Sub] and [Set] write to the receiver's cell,
      so two maps that hold the same location see each other's writes.
    - Go maps are finite maps ([gmap]).  Where the result of a [range]
      loop depends on the order in which the runtime visits the keys,
      that order is an argument of the model.
    - A run either returns, returns an error, or panics (nil receiver,
      index out of range, division by zero): [Outcome].
    - Big integers that are built, compared and dropped ([big.NewInt(0)]
      in a comparison, the weighted stakes of the signer queue) take no
      cell of the store; they are values. *)

From stdpp Require Import gmap list fin_maps.
From Stdlib Require Import ZArith Lia Sorted.

Open Scope Z_scope.

(** ** Machine integers *)

Definition two64 : Z := 2 ^ 64.
Definition two63 : Z := 2 ^ 63.

(** Arithmetic on [uint64] wraps around. *)
Definition wrap64 (z : Z) : Z := z mod two64.

(** [int(x)] for [x : uint64], on a platform whose [int] has 64 bits. *)
Definition toInt64 (z : Z) : Z := if z <? two63 then z else z - two64.

(** The method [Uint64] of [big.Int]: the low 64 bits of the absolute
    value. *)
Definition Uint64 (z : Z) : Z := Z.abs z mod two64.

(** ** Addresses, hashes, errors *)

(** [common.Address] (20 bytes) and [common.Hash] (32 bytes, here [BlockHash]), read as
    big-endian numbers. *)
Abbreviation Address := N (only parsing).
Abbreviation BlockHash := N (only parsing).

(** Modelled from the spec: the error values of the package are declared
    outside this file; [errInvalidVotingChain] is the one [apply] raises
    itself, every other error comes from signature recovery or from
    decoding and is carried through as a code. *)
Inductive Error : Type :=
  | errInvalidVotingChain
  | errExternal (code : N).

Inductive Outcome (A : Type) : Type :=
  | Done (a : A)
  | Fail (e : Error)
  | Panic.
Arguments Done {A} a.
Arguments Fail {A} e.
Arguments Panic {A}.

(** ** The store of big integers *)

Abbreviation loc := nat (only parsing).
Abbreviation Heap := (list Z) (only parsing).

(** A Go computation over the store.  The store is returned on every
    outcome: writes made before an error or a panic stay. *)
Definition Go (A : Type) : Type := Heap -> Outcome A * Heap.

Definition ret {A} (a : A) : Go A := fun h => (Done a, h).
Definition bind {A B} (m : Go A) (k : A -> Go B) : Go B :=
  fun h => match m h with
           | (Done a, h') => k a h'
           | (Fail e, h') => (Fail e, h')
           | (Panic, h') => (Panic, h')
           end.
Definition fail {A} (e : Error) : Go A := fun h => (Fail e, h).
Definition panic {A} : Go A := fun h => (Panic, h).

Declare Scope go_scope.
Delimit Scope go_scope with go.
Notation "x <- m ;; k" := (bind m (fun x => k))
  (at level 100, m at next level, right associativity) : go_scope.
Notation "m ;;; k" := (bind m (fun _ => k))
  (at level 100, right associativity) : go_scope.
Open Scope go_scope.

(** [for _, x := range xs { acc = body(acc, x) }] with early exit on
    error or panic. *)
Fixpoint forEach {A S} (body : S -> A -> Go S) (xs : list A) (acc : S) : Go S :=
  match xs with
  | [] => ret acc
  | x :: rest => acc' <- body acc x ;; forEach body rest acc'
  end.

(** [new(big.Int).Set(v)], [big.NewInt(v)]: a fresh cell. *)
Definition bigNew (v : Z) : Go loc := fun h => (Done (length h), h ++ [v]).

(** Reading the value of [*p]; a nil or dangling receiver panics. *)
Definition bigGet (p : loc) : Go Z :=
  fun h => match h !! p with
           | Some v => (Done v, h)
           | None => (Panic, h)
           end.

Definition bigSet (p : loc) (v : Z) : Go unit :=
  fun h => match h !! p with
           | Some _ => (Done tt, <[p := v]> h)
           | None => (Panic, h)
           end.

(** [z.Add(x, y)] and [z.Sub(x, y)]: both operands are read, then the
    receiver's cell is overwritten. *)
Definition bigAdd (z x y : loc) : Go unit :=
  a <- bigGet x ;; b <- bigGet y ;; bigSet z (a + b).
Definition bigSub (z x y : loc) : Go unit :=
  a <- bigGet x ;; b <- bigGet y ;; bigSet z (a - b).

(** A map lookup whose result is used as a method receiver:
    [m[k].Sub(m[k], ...)] panics when [k] is absent (nil receiver). *)
Definition receiver {K} `{Countable K} (m : gmap K loc) (k : K) : Go loc :=
  match m !! k with
  | Some p => ret p
  | None => panic
  end.

(** One admissible visiting order of [range m]; used where the loop's
    result does not depend on the order. *)
Definition rangeKeys {V} (m : gmap Address V) : list Address :=
  (map_to_list m).*1.

(** [for k, v := range m] over a map that the loop body does not change. *)
Definition rangeEntries {V} (m : gmap Address V) : list (Address * V) :=
  map_to_list m.

(** ** Constants *)

Definition defaultFullCredit : Z := 1000.
Definition missingPublishCredit : Z := 100.
Definition signRewardCredit : Z := 10.
Definition minCalSignerQueueCredit : Z := 300.

(** ** Data *)

(** Modelled from the spec: the struct [Vote] is declared outside this
    file; its three fields are the ones [copy] and [apply] read.  The
    stake is a [*big.Int]. *)
Record Vote : Type := mkVote {
  Voter : Address;
  Candidate : Address;
  Stake : loc
}.

(** Modelled from the spec: [params.AlienConfig] is declared outside this
    file; these are the fields the snapshot reads, all [uint64] but the
    signer list. *)
Record AlienConfig : Type := mkConfig {
  Period : Z;
  Epoch : Z;
  MaxSignerCount : Z;
  GenesisTimestamp : Z;
  SelfVoteSigners : list Address
}.

Module Header.
(** Modelled from the spec: [types.Header] is declared outside this file;
    [Number] and [Time] are big integers that the snapshot only reads. *)
Record t : Type := mk {
  Number : Z;
  Time : Z;
  Coinbase : Address;
  Extra : list Byte.byte
}.
End Header.

(** A vote as it stands in a header's payload, the stake by value. *)
Record VoteData : Type := mkVoteData {
  dVoter : Address;
  dCandidate : Address;
  dStake : Z
}.

Module Payload.
(** Modelled from the spec: the content of the payload of a header, which
    the decoder stores in a [HeaderExtra]; the stakes are by value. *)
Record t : Type := mk {
  LoopStartTime : Z;
  SignerQueue : list Address;
  CurrentBlockVotes : list VoteData;
  ModifyPredecessorVotes : list VoteData;
  SignerMissing : list Address
}.
(** The content of [HeaderExtra{}]. *)
Definition zero : t := mk 0 [] [] [] [].
End Payload.

Module HeaderExtra.
(** Modelled from the spec: the struct [HeaderExtra] is declared outside
    this file; these are the fields [apply] reads.  Its votes own
    freshly allocated stakes. *)
Record t : Type := mk {
  LoopStartTime : Z;
  SignerQueue : list Address;
  CurrentBlockVotes : list Vote;
  ModifyPredecessorVotes : list Vote;
  SignerMissing : list Address
}.
End HeaderExtra.

(** The snapshot.  [config] is the shared, read-only configuration; the
    signature cache is left out.  The signers are pointers to addresses
    that nothing writes to, and the voters' block numbers are big
    integers that the snapshot only reads: both are kept by value.  The
    tally and the stakes are written in place and are locations. *)
Record Snapshot : Type := mkSnapshot {
  config : AlienConfig;
  Number : Z;
  Hash : BlockHash;
  Signers : list Address;
  Votes : gmap Address Vote;
  Tally : gmap Address loc;
  Voters : gmap Address Z;
  Punished : gmap Address Z;
  HeaderTime : Z;
  LoopStartTime : Z
}.

Definition setNumber (n : Z) (s : Snapshot) : Snapshot :=
  mkSnapshot (config s) n (Hash s) (Signers s) (Votes s) (Tally s)
             (Voters s) (Punished s) (HeaderTime s) (LoopStartTime s).
Definition setHash (x : BlockHash) (s : Snapshot) : Snapshot :=
  mkSnapshot (config s) (Number s) x (Signers s) (Votes s) (Tally s)
             (Voters s) (Punished s) (HeaderTime s) (LoopStartTime s).
Definition setSigners (l : list Address) (s : Snapshot) : Snapshot :=
  mkSnapshot (config s) (Number s) (Hash s) l (Votes s) (Tally s)
             (Voters s) (Punished s) (HeaderTime s) (LoopStartTime s).
Definition setVotes (m : gmap Address Vote) (s : Snapshot) : Snapshot :=
  mkSnapshot (config s) (Number s) (Hash s) (Signers s) m (Tally s)
             (Voters s) (Punished s) (HeaderTime s) (LoopStartTime s).
Definition setTally (m : gmap Address loc) (s : Snapshot) : Snapshot :=
  mkSnapshot (config s) (Number s) (Hash s) (Signers s) (Votes s) m
             (Voters s) (Punished s) (HeaderTime s) (LoopStartTime s).
Definition setVoters (m : gmap Address Z) (s : Snapshot) : Snapshot :=
  mkSnapshot (config s) (Number s) (Hash s) (Signers s) (Votes s) (Tally s)
             m (Punished s) (HeaderTime s) (LoopStartTime s).
Definition setPunished (m : gmap Address Z) (s : Snapshot) : Snapshot :=
  mkSnapshot (config s) (Number s) (Hash s) (Signers s) (Votes s) (Tally s)
             (Voters s) m (HeaderTime s) (LoopStartTime s).
Definition setHeaderTime (x : Z) (s : Snapshot) : Snapshot :=
  mkSnapshot (config s) (Number s) (Hash s) (Signers s) (Votes s) (Tally s)
             (Voters s) (Punished s) x (LoopStartTime s).
Definition setLoopStartTime (x : Z) (s : Snapshot) : Snapshot :=
  mkSnapshot (config s) (Number s) (Hash s) (Signers s) (Votes s) (Tally s)
             (Voters s) (Punished s) (HeaderTime s) x.

(** [len(m)] and [len(l)] as an [int]. *)
Definition lenMap {V} (m : gmap Address V) : Z := Z.of_nat (size m).
Definition len {A} (l : list A) : Z := Z.of_nat (length l).

(** ** What the snapshot calls outside this file *)

(** Modelled from the spec: signature recovery ([ecrecover]), payload
    decoding ([rlp.DecodeBytes] into a zero [HeaderExtra]), the header
    hash and the two payload offsets are declared outside this file.
    The decoder reports what it has stored in the struct together with
    its error, if any; on an error the struct holds whatever was decoded
    before the failure. *)
Class Externals : Type := {
  extraVanity : nat;
  extraSeal : nat;
  ecrecover : Header.t -> Address + Error;
  rlpDecodeBytes : list Byte.byte -> Payload.t * option Error;
  headerHash : Header.t -> BlockHash
}.

(** The same outside world with another decoder. *)
Definition withDecoder (E : Externals)
    (decoder : list Byte.byte -> Payload.t * option Error) : Externals :=
  {| extraVanity := @extraVanity E;
     extraSeal := @extraSeal E;
     ecrecover := @ecrecover E;
     rlpDecodeBytes := decoder;
     headerHash := @headerHash E |}.

(** The decoder allocates one big integer per decoded stake. *)
Definition allocVote (d : VoteData) : Go Vote :=
  p <- bigNew (dStake d) ;; ret (mkVote (dVoter d) (dCandidate d) p).

Definition allocVotes (ds : list VoteData) : Go (list Vote) :=
  forEach (fun acc d => v <- allocVote d ;; ret (acc ++ [v])) ds [].

Definition allocExtra (d : Payload.t) : Go HeaderExtra.t :=
  cur <- allocVotes (Payload.CurrentBlockVotes d) ;;
  pre <- allocVotes (Payload.ModifyPredecessorVotes d) ;;
  ret (HeaderExtra.mk (Payload.LoopStartTime d)
                      (Payload.SignerQueue d)
                      cur pre
                      (Payload.SignerMissing d)).

(** [header.Extra[extraVanity : len(header.Extra)-extraSeal]]; the slice
    expression panics when the bounds cross. *)
Definition extraPayload `{Externals} (header : Header.t) : Go (list Byte.byte) :=
  let extra := Header.Extra header in
  if (length extra <? extraVanity + extraSeal)%nat then panic
  else ret (take (length extra - extraSeal - extraVanity) (drop extraVanity extra)).

(** ** Genesis *)

(** [newSnapshot]; [now] is [time.Now().Unix()]. *)
Definition newSnapshot (now : Z) (cfg : AlienConfig) (hash : BlockHash)
    (votes : list Vote) : Go Snapshot :=
  let snap := mkSnapshot cfg 0 hash [] ∅ ∅ ∅ ∅
                         (wrap64 (wrap64 now - 1)) (GenesisTimestamp cfg) in
  snap <- forEach (fun snap vote =>
            let snap := setVotes (<[Voter vote := vote]> (Votes snap)) snap in
            snap <- match Tally snap !! Candidate vote with
                    | Some _ => ret snap
                    | None =>
                        p <- bigNew 0 ;;
                        ret (setTally (<[Candidate vote := p]> (Tally snap)) snap)
                    end ;;
            t <- receiver (Tally snap) (Candidate vote) ;;
            bigAdd t t (Stake vote) ;;;
            ret (setVoters (<[Voter vote := 0]> (Voters snap)) snap))
          votes snap ;;
  signers <- forEach (fun acc i =>
               match SelfVoteSigners cfg with
               | [] => panic
               | _ :: _ =>
                   match SelfVoteSigners cfg
                           !! (i mod length (SelfVoteSigners cfg))%nat with
                   | Some a => ret (acc ++ [a])
                   | None => panic
                   end
               end)
             (seq 0 (Z.to_nat (toInt64 (MaxSignerCount cfg)))) [] ;;
  ret (setSigners signers snap).

(** ** copy *)

(** A new map with the entries of [m]. *)
Definition cloneMap {V} (m : gmap Address V) : gmap Address V :=
  foldl (fun acc kv => <[kv.1 := kv.2]> acc) ∅ (rangeEntries m).

(** [copy]: new containers; the stake of every vote goes to a fresh
    cell, the tally entries keep pointing to the cells of the source.
    The visiting order of the votes only decides which fresh cell each
    stake gets. *)
Definition copy (s : Snapshot) : Go Snapshot :=
  votes <- forEach (fun acc kv =>
             let vote : Vote := kv.2 in
             v <- bigGet (Stake vote) ;;
             p <- bigNew v ;;
             ret (<[kv.1 := mkVote (Voter vote) (Candidate vote) p]> acc))
           (rangeEntries (Votes s)) ∅ ;;
  ret (mkSnapshot (config s) (Number s) (Hash s) (Signers s)
                  votes
                  (cloneMap (Tally s))
                  (cloneMap (Voters s))
                  (cloneMap (Punished s))
                  (HeaderTime s) (LoopStartTime s)).

(** ** apply *)

(** The sanity loop of [apply]:
    [headers[i+1].Number.Uint64() != headers[i].Number.Uint64()+1]. *)
Fixpoint consecutive (headers : list Header.t) : bool :=
  match headers with
  | h :: (h' :: _) as rest =>
      if Uint64 (Header.Number h') =? wrap64 (Uint64 (Header.Number h) + 1)
      then consecutive rest
      else false
  | _ => true
  end.

(** One new vote of the block ([CurrentBlockVotes]). *)
Definition dealNewVote (number : Z) (snap : Snapshot) (vote : Vote) : Go Snapshot :=
  match Votes snap !! Voter vote with
  | Some lastVote =>
      t <- receiver (Tally snap) (Candidate lastVote) ;;
      bigSub t t (Stake lastVote)
  | None => ret tt
  end ;;;
  snap <- match Tally snap !! Candidate vote with
          | Some t => bigAdd t t (Stake vote) ;;; ret snap
          | None => ret (setTally (<[Candidate vote := Stake vote]> (Tally snap)) snap)
          end ;;
  let snap := setVotes (<[Voter vote := mkVote (Voter vote) (Candidate vote) (Stake vote)]>
                          (Votes snap)) snap in
  ret (setVoters (<[Voter vote := number]> (Voters snap)) snap).

(** One balance change of an earlier voter ([ModifyPredecessorVotes]). *)
Definition dealModifiedVote (snap : Snapshot) (txVote : Vote) : Go Snapshot :=
  match Votes snap !! Voter txVote with
  | Some lastVote =>
      t <- receiver (Tally snap) (Candidate lastVote) ;;
      bigSub t t (Stake lastVote) ;;;
      bigAdd t t (Stake txVote) ;;;
      ret (setVotes (<[Voter txVote := mkVote (Voter txVote) (Candidate lastVote) (Stake txVote)]>
                       (Votes snap)) snap)
  | None => ret snap
  end.

(** The halving of the punishments on an epoch block.  The body touches
    the visited key only, so the visiting order does not matter. *)
Definition halvePunished (punished : gmap Address Z) : gmap Address Z :=
  foldl (fun acc bePublished =>
           let count := default 0 (acc !! bePublished) / 2 in
           if 0 <? count then <[bePublished := count]> acc
           else delete bePublished acc)
        punished (rangeKeys punished).

(** One signer that missed its turn. *)
Definition punishMissing (punished : gmap Address Z) (signerMissing : Address)
    : gmap Address Z :=
  match punished !! signerMissing with
  | Some v => <[signerMissing := wrap64 (v + missingPublishCredit)]> punished
  | None => <[signerMissing := missingPublishCredit]> punished
  end.

(** The reward of the block's producer: a [uint64] subtraction followed
    by the test [<= 0]. *)
Definition rewardSigner (coinbase : Address) (punished : gmap Address Z)
    : gmap Address Z :=
  match punished !! coinbase with
  | Some v =>
      let punished' := <[coinbase := wrap64 (v - signRewardCredit)]> punished in
      if default 0 (punished' !! coinbase) <=? 0 then delete coinbase punished'
      else punished'
  | None => punished
  end.

(** The body of the header loop. *)
Definition applyHeader `{Externals} (snap : Snapshot) (header : Header.t)
    : Go Snapshot :=
  match ecrecover header with
  | inr err => fail err
  | inl _ =>
      payload <- extraPayload header ;;
      (* the error of the decoder is dropped *)
      headerExtra <- allocExtra (rlpDecodeBytes payload).1 ;;
      let snap := setHeaderTime (Uint64 (Header.Time header)) snap in
      let snap := setLoopStartTime (HeaderExtra.LoopStartTime headerExtra) snap in
      let snap := setSigners (HeaderExtra.SignerQueue headerExtra) snap in
      snap <- forEach (dealNewVote (Header.Number header))
                      (HeaderExtra.CurrentBlockVotes headerExtra) snap ;;
      snap <- forEach dealModifiedVote
                      (HeaderExtra.ModifyPredecessorVotes headerExtra) snap ;;
      snap <- (if Epoch (config snap) =? 0 then panic
               else if Uint64 (Header.Number header) mod Epoch (config snap) =? 0
                    then ret (setPunished (halvePunished (Punished snap)) snap)
                    else ret snap) ;;
      let snap := setPunished (foldl punishMissing (Punished snap)
                                     (HeaderExtra.SignerMissing headerExtra)) snap in
      ret (setPunished (rewardSigner (Header.Coinbase header) (Punished snap)) snap)
  end.

(** Whether a vote cast at block [voteNumber] is older than an epoch. *)
Definition expired (cfg : AlienConfig) (snap : Snapshot) (voteNumber : Z) : bool :=
  Epoch cfg <? wrap64 (Number snap - Uint64 voteNumber).

(** The threshold test that ends the expiry loop. *)
Definition atThreshold (cfg : AlienConfig) (snap : Snapshot) : bool :=
  (lenMap (Voters snap) <=? toInt64 (MaxSignerCount cfg))
  || (lenMap (Tally snap) <=? toInt64 (MaxSignerCount cfg)).

(** The removal of one expired vote. *)
Definition clearVote (snap : Snapshot) (expiredVote : Vote) : Go Snapshot :=
  t <- receiver (Tally snap) (Candidate expiredVote) ;;
  bigSub t t (Stake expiredVote) ;;;
  v <- bigGet t ;;
  let snap := if v =? 0
              then setTally (delete (Candidate expiredVote) (Tally snap)) snap
              else snap in
  let snap := setVotes (delete (Voter expiredVote) (Votes snap)) snap in
  ret (setVoters (delete (Voter expiredVote) (Voters snap)) snap).

(** The expiry loop, [for voterAddress, voteNumber := range snap.Voters].
    [order] is the order in which the runtime visits the voters; a voter
    removed before it is reached is not visited. *)
Fixpoint expireVotes (cfg : AlienConfig) (order : list Address) (snap : Snapshot)
    : Go Snapshot :=
  match order with
  | [] => ret snap
  | voterAddress :: rest =>
      match Voters snap !! voterAddress with
      | None => expireVotes cfg rest snap
      | Some voteNumber =>
          if atThreshold cfg snap then ret snap
          else if expired cfg snap voteNumber then
            match Votes snap !! voterAddress with
            | Some expiredVote =>
                snap' <- clearVote snap expiredVote ;;
                expireVotes cfg rest snap'
            | None => expireVotes cfg rest snap
            end
          else expireVotes cfg rest snap
      end
  end.

(** The final sweep of the tally entries that are zero or negative. *)
Definition sweepTally (snap : Snapshot) : Go Snapshot :=
  forEach (fun snap kv =>
             v <- bigGet kv.2 ;;
             if v <=? 0 then ret (setTally (delete kv.1 (Tally snap)) snap)
             else ret snap)
          (rangeEntries (Tally snap)) snap.

(** [apply]; [order] is the visiting order of the expiry loop. *)
Definition apply `{Externals} (order : list Address) (s : Snapshot)
    (headers : list Header.t) : Go Snapshot :=
  match headers with
  | [] => ret s
  | first :: _ =>
      if negb (consecutive headers) then fail errInvalidVotingChain
      else if negb (Uint64 (Header.Number first) =? wrap64 (Number s + 1))
      then fail errInvalidVotingChain
      else
        snap <- copy s ;;
        snap <- forEach applyHeader headers snap ;;
        let snap := setNumber (wrap64 (Number snap + len headers)) snap in
        let snap := setHash (headerHash (List.last headers first)) snap in
        snap <- expireVotes (config s) order snap ;;
        sweepTally snap
  end.

(** ** inturn *)

(** [inturn]; the division panics for a zero period, the remainder for
    an empty signer list, the indexing for a negative index.  [%] on
    [int] truncates towards zero ([Z.rem]). *)
Definition inturn (s : Snapshot) (signer : Address) (headerTime : Z) : Outcome bool :=
  if Period (config s) =? 0 then Panic
  else if len (Signers s) =? 0 then Panic
  else
    let loopIndex :=
      Z.rem (toInt64 (wrap64 (headerTime - LoopStartTime s) / Period (config s)))
            (len (Signers s)) in
    if len (Signers s) <=? loopIndex then Done false
    else if loopIndex <? 0 then Panic
    else match Signers s !! Z.to_nat loopIndex with
         | None => Panic
         | Some a => if negb (N.eqb a signer) then Done false else Done true
         end.

(** ** getSignerQueue *)

(** The weighted stake of a candidate is a fresh big integer that
    nothing else refers to; it is kept by value. *)
Record TallyItem : Type := mkTallyItem {
  addr : Address;
  stake : Z
}.

(** [TallySlice.Less]: [s[i].stake.Cmp(s[j].stake) > 0]. *)
Definition Less (a b : TallyItem) : bool := stake b <? stake a.

(** The credit of a punished signer: [defaultFullCredit - punished] is a
    [uint64] subtraction, floored at [minCalSignerQueueCredit] and then
    converted with [int64(...)]. *)
Definition creditWeight (punished : Z) : Z :=
  let creditWeight := wrap64 (defaultFullCredit - punished) in
  let creditWeight := if creditWeight <? minCalSignerQueueCredit
                      then minCalSignerQueueCredit else creditWeight in
  toInt64 creditWeight.

Definition tallyItemOf (s : Snapshot) (address : Address) (stake : Z) : TallyItem :=
  match Punished s !! address with
  | Some punished => mkTallyItem address (stake * creditWeight punished)
  | None => mkTallyItem address (stake * defaultFullCredit)
  end.

(** [a[i], a[j] = a[j], a[i]] *)
Definition swap {A} (i j : nat) (l : list A) : list A :=
  match l !! i, l !! j with
  | Some a, Some b => <[i := b]> (<[j := a]> l)
  | _, _ => l
  end.

(** The shuffle loop; [draws k] is the value of the [k]-th call of
    [rand.Int()] made by this run, a non-negative [int] taken from the
    process-wide generator.  [todo] counts the remaining iterations. *)
Fixpoint shuffleFrom (draws : nat -> N) (i todo : nat) (l : list Address)
    : list Address :=
  match todo with
  | O => l
  | S todo' =>
      let newPos := N.to_nat (draws i mod N.of_nat (length l))%N in
      shuffleFrom draws (S i) todo' (swap i newPos l)
  end.

Definition shuffle (draws : nat -> N) (l : list Address) : list Address :=
  shuffleFrom draws 0 (length l) l.

(** The first loop of [getSignerQueue]: one weighted item per tally
    entry, in the order in which the runtime visits the tally. *)
Definition weighTally (order : list Address) (s : Snapshot) : Go (list TallyItem) :=
  forEach (fun tallySlice address =>
             match Tally s !! address with
             | Some stake =>
                 v <- bigGet stake ;;
                 ret (tallySlice ++ [tallyItemOf s address v])
             | None => ret tallySlice
             end)
          order [].

Section SignerQueue.
(** [sort.Sort] of the Go library, applied to a [TallySlice]. *)
Variable sortSort : list TallyItem -> list TallyItem.

(** [getSignerQueue] up to the shuffle: the addresses of the
    [MaxSignerCount] first items of the sorted slice.  [order] is the
    visiting order of the tally. *)
Definition topStakeAddress (order : list Address) (s : Snapshot)
    : Go (list Address) :=
  tallySlice <- weighTally order s ;;
  let tallySlice := sortSort tallySlice in
  let queueLength := toInt64 (MaxSignerCount (config s)) in
  let queueLength := if len tallySlice <? queueLength
                     then len tallySlice else queueLength in
  if queueLength <? 0 then panic
  else ret (map addr (take (Z.to_nat queueLength) tallySlice)).

(** [getSignerQueue]; [draws] are the values of [rand.Int()]. *)
Definition getSignerQueue (order : list Address) (draws : nat -> N)
    (s : Snapshot) : Go (list Address) :=
  top <- topStakeAddress order s ;;
  ret (shuffle draws top).
End SignerQueue.

(** Insertion sort by [Less], which is what [sort.Sort] runs on short
    slices: each element moves left while it is [Less] than its left
    neighbour. *)
Fixpoint insertItem (x : TallyItem) (sorted : list TallyItem) : list TallyItem :=
  match sorted with
  | [] => [x]
  | y :: rest => if Less x y then y :: insertItem x rest else x :: y :: rest
  end.

Definition insertionSort (l : list TallyItem) : list TallyItem :=
  rev (foldl (fun sorted x => insertItem x sorted) [] l).

(** ** isVoter *)

Definition isVoter (s : Snapshot) (address : Address) : bool :=
  match Voters s !! address with
  | Some _ => true
  | None => false
  end.

(** ** Readings of a snapshot in a store *)

(** The value of the tally of [candidate], if it has an entry. *)
Definition tallyValue (h : Heap) (s : Snapshot) (candidate : Address) : option Z :=
  match Tally s !! candidate with
  | Some p => h !! p
  | None => None
  end.

(** The value of the stake of [voter]'s vote, if it has one. *)
Definition stakeValue (h : Heap) (s : Snapshot) (voter : Address) : option Z :=
  match Votes s !! voter with
  | Some vote => h !! Stake vote
  | None => None
  end.

(** The sum of all tally values, and the sum of the stakes of all votes
    (a missing cell counts as zero). *)
Definition tallyTotal (h : Heap) (s : Snapshot) : Z :=
  foldr (fun kv acc => default 0 (h !! kv.2) + acc) 0 (map_to_list (Tally s)).

Definition stakeTotal (h : Heap) (s : Snapshot) : Z :=
  foldr (fun kv acc => default 0 (h !! Stake kv.2) + acc) 0 (map_to_list (Votes s)).

(** The sum of the stakes of the votes that name [candidate]. *)
Definition stakeFor (h : Heap) (s : Snapshot) (candidate : Address) : Z :=
  foldr (fun kv acc =>
           if N.eqb (Candidate kv.2) candidate
           then default 0 (h !! Stake kv.2) + acc else acc)
        0 (map_to_list (Votes s)).

(** The weight of a candidate by the formula of the design document:
    the stake times the full credit, or times
    [max (full credit - punishment) floor] for a punished candidate. *)
Definition specWeight (stake : Z) (punished : option Z) : Z :=
  match punished with
  | None => stake * defaultFullCredit
  | Some p => stake * Z.max (defaultFullCredit - p) minCalSignerQueueCredit
  end.

(** ** Notions of the design document *)

(** The headers have a gap after position [i]: the block numbers, as
    [apply] reads them, do not follow each other. *)
Definition gapAt (headers : list Header.t) (i : nat) : Prop :=
  exists a b, headers !! i = Some a /\ headers !! S i = Some b /\
              Uint64 (Header.Number b) <> wrap64 (Uint64 (Header.Number a) + 1).


(** The snapshot once [vote] has expired: the vote is gone from the
    votes and from the voters, and the tally entry of its candidate is
    gone if [remaining], the tally left after the subtraction, is zero. *)
Definition cleared (snap : Snapshot) (vote : Vote) (remaining : Z) : Snapshot :=
  mkSnapshot (config snap) (Number snap) (Hash snap) (Signers snap)
             (delete (Voter vote) (Votes snap))
             (if remaining =? 0 then delete (Candidate vote) (Tally snap)
              else Tally snap)
             (delete (Voter vote) (Voters snap))
             (Punished snap) (HeaderTime snap) (LoopStartTime snap).

(** Every vote is stored under its own voter, as [newSnapshot], [copy]
    and [apply] store them. *)
Definition keyed (snap : Snapshot) : Prop :=
  forall k v, Votes snap !! k = Some v -> Voter v = k.


(** ** Test vectors *)

Module Vectors.
Definition alice : Address := 0xA1%N.
Definition bob : Address := 0xB0%N.
Definition carol : Address := 0xC0%N.
Definition dave : Address := 0xD0%N.
Definition victor : Address := 0x71%N.
Definition wendy : Address := 0x72%N.

Definition errDecode : Error := errExternal 1.

(** The payloads the test decoder knows, by their single byte. *)
Definition payloads : list Payload.t :=
  [ (* 0: two voters choose carol, who has no tally entry yet *)
    Payload.mk 0 [alice; bob; carol]
      [mkVoteData victor carol 10; mkVoteData wendy carol 5] [] [];
    (* 1: victor moves his vote to dave *)
    Payload.mk 0 [alice; bob; carol]
      [mkVoteData victor dave 5] [] [];
    (* 2: alice missed her turn *)
    Payload.mk 0 [alice; bob; carol] [] [] [alice];
    (* 3: nothing to record *)
    Payload.mk 0 [alice; bob; carol] [] [] [] ].

(** A decoder for one-byte payloads; every other payload is malformed
    and leaves the zero struct. *)
Definition decode (payload : list Byte.byte) : Payload.t * option Error :=
  match payload with
  | [b] =>
      match payloads !! Byte.to_nat b with
      | Some d => (d, None)
      | None => (Payload.zero, Some errDecode)
      end
  | _ => (Payload.zero, Some errDecode)
  end.

#[export] Instance externals : Externals := {|
  extraVanity := 32;
  extraSeal := 65;
  ecrecover := fun header => inl (Header.Coinbase header);
  rlpDecodeBytes := decode;
  headerHash := fun header => Z.to_N (Header.Number header)
|}.

(** 32 bytes of vanity, the payload, 65 bytes of seal. *)
Definition extraOf (payload : list Byte.byte) : list Byte.byte :=
  replicate 32 Byte.x00 ++ payload ++ replicate 65 Byte.x00.

Definition header (number : Z) (coinbase : Address) (payload : list Byte.byte)
    : Header.t :=
  Header.mk number (1000 + 3 * number) coinbase (extraOf payload).

Definition cfg : AlienConfig := mkConfig 3 2 3 1000 [alice; bob; carol].

(** A genesis without votes. *)
Definition genesis : Outcome Snapshot * Heap := newSnapshot 1000 cfg 0%N [] [].

(** A genesis in which victor votes for carol with a stake of 10. *)
Definition genesisVoted : Outcome Snapshot * Heap :=
  newSnapshot 1000 cfg 0%N [mkVote victor carol 0%nat] [10].

(** A configuration with a single signer slot. *)
Definition cfgOne : AlienConfig := mkConfig 3 2 1 1000 [alice].

(** Block 5 with one slot: victor voted for carol in the genesis
    block, wendy for dave in block 5. *)
Definition crowded : Snapshot :=
  mkSnapshot cfgOne 5 5%N [alice]
             {[victor := mkVote victor carol 2%nat;
               wendy := mkVote wendy dave 3%nat]}
             {[carol := 0%nat; dave := 1%nat]}
             {[victor := 0; wendy := 5]}
             ∅ 1015 1015.
Definition crowdedStore : Heap := [10; 5; 10; 5].

(** Alice holds ten times the stake of bob and has missed eleven
    blocks. *)
Definition punishedOnce : Snapshot :=
  mkSnapshot cfgOne 20 20%N [alice]
             ∅ {[alice := 0%nat; bob := 1%nat]} ∅
             {[alice := 1100]} 1060 1060.
Definition punishedStore : Heap := [10; 1].

(** Three signers, the loop starting at second 3. *)
Definition rotating : Snapshot :=
  mkSnapshot (mkConfig 3 2 3 0 [alice; bob; carol]) 1 1%N [alice; bob; carol]
             ∅ ∅ ∅ ∅ 3 3.

(** Two candidates for three slots. *)
Definition twoCandidates : Snapshot :=
  mkSnapshot cfg 20 20%N [alice; bob; carol]
             ∅ {[alice := 0%nat; bob := 1%nat]} ∅ ∅ 1060 1060.
End Vectors.

(** ** Notions for the further properties *)

(** What the halving makes of one punishment: its half, or no entry when
    the half is zero. *)
Definition halve (v : Z) : option Z :=
  if 0 <? v / 2 then Some (v / 2) else None.

(** The halving loop with the keys visited in a given order. *)
Definition halvePunishedIn (order : list Address) (punished : gmap Address Z)
    : gmap Address Z :=
  foldl (fun acc bePublished =>
           let count := default 0 (acc !! bePublished) / 2 in
           if 0 <? count then <[bePublished := count]> acc
           else delete bePublished acc)
        punished order.

(** How often [a] stands in the list of the signers that missed. *)
Definition missedBy (a : Address) (missing : list Address) : Z :=
  len (filter (fun x => x = a) missing).

(** The fields of a snapshot that the vote bookkeeping leaves alone. *)
Definition frameOf (s : Snapshot)
    : AlienConfig * Z * BlockHash * list Address * gmap Address Z * Z * Z :=
  (config s, Number s, Hash s, Signers s, Punished s, HeaderTime s, LoopStartTime s).

(** The value of a cell, zero for a missing one. *)
Definition cellValue (h : Heap) (p : loc) : Z := default 0 (h !! p).

(** The last vote of [a] in a list of votes, if there is one. *)
Definition lastVoteOf (a : Address) (votes : list Vote) : option Vote :=
  last (filter (fun v => Voter v = a) votes).

(** A computation that never returns an error. *)
Definition noFail {A} (m : Go A) : Prop :=
  forall h e h', m h <> (Fail e, h').

(** [header.Extra[extraVanity : len(header.Extra)-extraSeal]] as bytes. *)
Definition payloadBytes `{Externals} (header : Header.t) : list Byte.byte :=
  take (length (Header.Extra header) - extraSeal - extraVanity)
       (drop extraVanity (Header.Extra header)).

(** The punishments after one header, from those before it: the halving
    on an epoch block, the missed turns, the reward of the producer. *)
Definition punishedStep `{Externals} (cfg : AlienConfig)
    (punished : gmap Address Z) (header : Header.t) : gmap Address Z :=
  rewardSigner (Header.Coinbase header)
    (foldl punishMissing
           (if Uint64 (Header.Number header) mod Epoch cfg =? 0
            then halvePunished punished else punished)
           (Payload.SignerMissing (rlpDecodeBytes (payloadBytes header)).1)).

(** The sum of the stakes, read in [h], of the votes of a list that name
    [candidate]. *)
Definition stakeSumOf (h : Heap) (candidate : Address) (votes : list Vote) : Z :=
  foldr (fun v acc =>
           if N.eqb (Candidate v) candidate then cellValue h (Stake v) + acc else acc)
        0 votes.

(** The tally a candidate has after the votes of a list: the sum of the
    stakes of the votes that name it, and no entry when none does. *)
Definition genesisTally (h : Heap) (candidate : Address) (votes : list Vote)
    : option Z :=
  if decide (candidate ∈ Candidate <$> votes)
  then Some (stakeSumOf h candidate votes) else None.

(** The body of the vote loop of [newSnapshot]. *)
Definition genesisVote (snap : Snapshot) (vote : Vote) : Go Snapshot :=
  let snap := setVotes (<[Voter vote := vote]> (Votes snap)) snap in
  snap <- match Tally snap !! Candidate vote with
          | Some _ => ret snap
          | None =>
              p <- bigNew 0 ;;
              ret (setTally (<[Candidate vote := p]> (Tally snap)) snap)
          end ;;
  t <- receiver (Tally snap) (Candidate vote) ;;
  bigAdd t t (Stake vote) ;;;
  ret (setVoters (<[Voter vote := 0]> (Voters snap)) snap).

(** What the vote loop of [newSnapshot] keeps true: the cells of the
    given store are untouched, every tally cell is a new one, no two
    candidates share a cell, and each tally is the sum of the stakes
    seen so far. *)
Definition genesisInv (h0 : Heap) (seen : list Vote) (snap : Snapshot) (h : Heap)
    : Prop :=
  (length h0 <= length h)%nat
  /\ (forall p, (p < length h0)%nat -> h !! p = h0 !! p)
  /\ (forall c t, Tally snap !! c = Some t -> (length h0 <= t < length h)%nat)
  /\ (forall c c' t, Tally snap !! c = Some t -> Tally snap !! c' = Some t -> c = c')
  /\ (forall c, tallyValue h snap c = genesisTally h0 c seen)
  /\ (forall a, Votes snap !! a = lastVoteOf a seen)
  /\ (forall a, Voters snap !! a = (lastVoteOf a seen ≫= fun _ => Some 0)).

(** The weighted item of a candidate whose tally is read in [h]. *)
Definition itemOf (h : Heap) (s : Snapshot) (a : Address) : TallyItem :=
  tallyItemOf s a (match Tally s !! a with
                   | Some p => cellValue h p
                   | None => 0
                   end).

(** The weight of a candidate in the signer queue. *)
Definition weightOf (h : Heap) (s : Snapshot) (a : Address) : Z :=
  stake (itemOf h s a).

(** The visited addresses that have a tally entry. *)
Definition candidatesIn (order : list Address) (s : Snapshot) : list Address :=
  filter (fun a => is_Some (Tally s !! a)) order.

(** A slice in the order [sort.Sort] leaves it in under [Less]: no later
    item has a larger stake than an earlier one. *)
Definition descending (l : list TallyItem) : Prop :=
  forall i j x y, l !! i = Some x -> l !! j = Some y -> (i <= j)%nat ->
                  stake y <= stake x.

(** What [sort.Sort] promises: the same items, in order. *)
Definition sortContract (sortSort : list TallyItem -> list TallyItem) : Prop :=
  forall l, sortSort l ≡ₚ l /\ descending (sortSort l).

(** The cells of [h0] outside [T0] read the same in [h], which is at
    least as long. *)
Definition untouched (T0 : loc -> Prop) (h0 h : Heap) : Prop :=
  (length h0 <= length h)%nat
  /\ forall p, (p < length h0)%nat -> ~ T0 p -> h !! p = h0 !! p.

(** A cell that may be written to: one of [T0], or one allocated after
    [h0]. *)
Definition writable (T0 : loc -> Prop) (h0 : Heap) (t : loc) : Prop :=
  T0 t \/ (length h0 <= t)%nat.

(** Every tally cell of the snapshot may be written to. *)
Definition tallyWithin (T0 : loc -> Prop) (h0 : Heap) (snap : Snapshot) : Prop :=
  forall c t, Tally snap !! c = Some t -> writable T0 h0 t.

(** A computation that keeps [P] of the store on every outcome and
    returns results that satisfy [Q]. *)
Definition keeps {A} (P : Heap -> Prop) (Q : A -> Prop) (m : Go A) : Prop :=
  forall h, P h -> P (m h).2 /\ forall a, (m h).1 = Done a -> Q a.

(** ** More test vectors *)

Module MoreVectors.
Import Vectors.

(** Alice has missed three blocks. *)
Definition lightlyPunished : Snapshot :=
  mkSnapshot cfgOne 20 20%N [alice]
             ∅ {[alice := 0%nat; bob := 1%nat]} ∅
             {[alice := 300]} 1060 1060.

(** Victor's vote for carol is still recorded, and carol has no tally
    entry any more. *)
Definition orphaned : Snapshot :=
  mkSnapshot cfg 0 0%N [alice; bob; carol]
             {[victor := mkVote victor carol 0%nat]}
             ∅ {[victor := 0]} ∅ 999 1000.
Definition orphanedStore : Heap := [0].
End MoreVectors.

(** * Properties *)

(** ** Machine integers *)

Lemma two64_eq : two64 = 18446744073709551616.
Proof. reflexivity. Qed.

Lemma two63_eq : two63 = 9223372036854775808.
Proof. reflexivity. Qed.

Lemma wrap64_small z : 0 <= z < two64 -> wrap64 z = z.
Proof. intros Hz. unfold wrap64. apply Z.mod_small. exact Hz. Qed.


Lemma toInt64_small z : z < two63 -> toInt64 z = z.
Proof. intros Hz. unfold toInt64. destruct (Z.ltb_spec z two63); [reflexivity | lia]. Qed.

(** ** The sanity checks of apply *)

Lemma consecutive_false headers :
  consecutive headers = false <-> exists i, gapAt headers i.
Proof.
  induction headers as [| a [| b rest] IH].
  - split; [discriminate |]. intros (i & x & y & Hx & _). rewrite lookup_nil in Hx. discriminate.
  - split; [discriminate |]. intros (i & x & y & _ & Hy & _). discriminate.
  - change (consecutive (a :: b :: rest))
      with (if Uint64 (Header.Number b) =? wrap64 (Uint64 (Header.Number a) + 1)
            then consecutive (b :: rest) else false).
    destruct (Z.eqb_spec (Uint64 (Header.Number b)) (wrap64 (Uint64 (Header.Number a) + 1)))
      as [Heq | Hne].
    + rewrite IH. split.
      * intros (i & x & y & Hx & Hy & Hxy). exists (S i), x, y. auto.
      * intros ([| i] & x & y & Hx & Hy & Hxy).
        -- simpl in Hx, Hy. congruence.
        -- exists i, x, y. auto.
    + split; [intros _ | reflexivity]. exists 0%nat, a, b. auto.
Qed.




(** ** The reward of the producer *)

(** C10.  The reward step leaves the punished map as it is when the
    coinbase has no entry in it, and for any coinbase it creates no
    entry: an address without an entry before the step has none after. *)
Theorem rewardSigner_unpunished (coinbase : Address) (punished : gmap Address Z) :
  (punished !! coinbase = None -> rewardSigner coinbase punished = punished)
  /\ (forall a : Address, punished !! a = None ->
        rewardSigner coinbase punished !! a = None).
Proof.
  split.
  - intros Hnone. unfold rewardSigner. rewrite Hnone. reflexivity.
  - intros a Ha. unfold rewardSigner.
    destruct (punished !! coinbase) as [v |] eqn:Hcb; [| exact Ha].
    assert (coinbase <> a) by congruence.
    cbv zeta. destruct (_ <=? 0).
    + rewrite lookup_delete_ne by assumption. rewrite lookup_insert_ne by assumption. exact Ha.
    + rewrite lookup_insert_ne by assumption. exact Ha.
Qed.

(** A punishment below the reward wraps around and stays. *)
Lemma rewardSigner_wraps (coinbase : Address) (punished : gmap Address Z) (v : Z) :
  punished !! coinbase = Some v -> 0 < v < signRewardCredit ->
  rewardSigner coinbase punished !! coinbase = Some (two64 - signRewardCredit + v).
Proof.
  intros Hcb Hv. unfold rewardSigner. rewrite Hcb. cbv zeta.
  rewrite lookup_insert_eq. simpl.
  assert (wrap64 (v - signRewardCredit) = two64 - signRewardCredit + v) as ->.
  { unfold wrap64, signRewardCredit in *. rewrite two64_eq.
    symmetry. apply (Z.mod_unique _ _ (-1)); lia. }
  destruct (Z.leb_spec (two64 - signRewardCredit + v) 0) as [Hle |].
  - unfold signRewardCredit in *. rewrite two64_eq in Hle. lia.
  - apply lookup_insert_eq.
Qed.

(** ** The expiry loop *)






Lemma bind_done {A B} (m : Go A) (k : A -> Go B) a h h' :
  m h = (Done a, h') -> bind m k h = k a h'.
Proof. intros Hm. unfold bind. rewrite Hm. reflexivity. Qed.




Lemma clearVote_inv snap vote h snap' h' :
  clearVote snap vote h = (Done snap', h') ->
  exists remaining, snap' = cleared snap vote remaining.
Proof.
  unfold clearVote, bind.
  destruct (receiver (Tally snap) (Candidate vote) h) as [[t | e |] h1];
    [| discriminate | discriminate].
  destruct (bigSub t t (Stake vote) h1) as [[[] | e |] h2];
    [| discriminate | discriminate].
  destruct (bigGet t h2) as [[v | e |] h3]; [| discriminate | discriminate].
  unfold ret. intros Hrun. injection Hrun as <- <-.
  exists v. unfold cleared. destruct (v =? 0); reflexivity.
Qed.








(** ** inturn *)

Lemma len_pos {A} (l : list A) : l <> [] -> 0 < len l.
Proof. destruct l; [congruence |]. intros _. unfold len. simpl. lia. Qed.

(** C9, amended.  For a non-empty signer list, a positive period, a
    header time that is not before the loop start and a quotient below
    [2^63], [inturn] returns, and returns [true] exactly when the signer
    at index [((headerTime - loopStartTime) / Period) mod len(signers)]
    is the given one. *)
Theorem inturn_in_range s signer headerTime :
  Signers s <> [] ->
  0 < Period (config s) ->
  0 <= LoopStartTime s <= headerTime ->
  headerTime < two64 ->
  (headerTime - LoopStartTime s) / Period (config s) < two63 ->
  inturn s signer headerTime
  = Done (bool_decide
            (Signers s !! Z.to_nat (((headerTime - LoopStartTime s) / Period (config s))
                                     mod len (Signers s))
             = Some signer)).
Proof.
  intros Hsigners Hperiod Htime Hmax Hquot.
  pose proof (len_pos _ Hsigners) as Hlen.
  unfold inturn.
  destruct (Z.eqb_spec (Period (config s)) 0); [lia |].
  destruct (Z.eqb_spec (len (Signers s)) 0); [lia |].
  rewrite wrap64_small by lia. rewrite toInt64_small by assumption.
  set (q := (headerTime - LoopStartTime s) / Period (config s)) in *.
  assert (0 <= q) by (apply Z.div_pos; lia).
  rewrite Z.rem_mod_nonneg by lia.
  pose proof (Z.mod_pos_bound q (len (Signers s)) Hlen) as Hidx.
  cbv zeta.
  destruct (Z.leb_spec (len (Signers s)) (q mod len (Signers s))); [lia |].
  destruct (Z.ltb_spec (q mod len (Signers s)) 0); [lia |].
  destruct (Signers s !! Z.to_nat (q mod len (Signers s))) as [a |] eqn:Hlook.
  - destruct (N.eqb_spec a signer) as [-> | Hne]; simpl.
    + rewrite bool_decide_eq_true_2; reflexivity.
    + rewrite bool_decide_eq_false_2; [reflexivity | congruence].
  - apply lookup_ge_None in Hlook.
    set (r := q mod len (Signers s)) in *. clearbody r.
    exfalso. unfold len in *. lia.
Qed.

(** ** The signer queue *)

Lemma swap_length {A} (i j : nat) (l : list A) : length (swap i j l) = length l.
Proof.
  unfold swap. destruct (l !! i), (l !! j); try reflexivity.
  rewrite !length_insert. reflexivity.
Qed.

Lemma swap_perm {A} (i j : nat) (l : list A) : swap i j l ≡ₚ l.
Proof.
  unfold swap.
  destruct (l !! i) as [a |] eqn:Hi; [| reflexivity].
  destruct (l !! j) as [b |] eqn:Hj; [| reflexivity].
  apply Permutation_inj. split; [rewrite !length_insert; reflexivity |].
  exists (fun k => if decide (k = i) then j else if decide (k = j) then i else k).
  split.
  - intros x y. repeat case_decide; intros; subst; congruence.
  - intros k. rewrite !list_lookup_insert. rewrite length_insert.
    pose proof (lookup_lt_Some _ _ _ Hi). pose proof (lookup_lt_Some _ _ _ Hj).
    repeat case_decide; subst; try congruence; try lia;
      destruct_and?; subst; try congruence; try tauto.
Qed.

Lemma shuffleFrom_perm draws i todo l : shuffleFrom draws i todo l ≡ₚ l.
Proof.
  revert i l. induction todo as [| todo IH]; intros i l; [reflexivity |].
  simpl. rewrite IH. apply swap_perm.
Qed.

Lemma shuffle_perm draws l : shuffle draws l ≡ₚ l.
Proof. apply shuffleFrom_perm. Qed.

(** Up to a punishment of 1000 the credit is the one of the design
    document. *)
Lemma creditWeight_floor (p : Z) :
  0 <= p <= defaultFullCredit ->
  creditWeight p = Z.max (defaultFullCredit - p) minCalSignerQueueCredit.
Proof.
  intros Hp. unfold creditWeight, defaultFullCredit, minCalSignerQueueCredit in *.
  rewrite wrap64_small by (rewrite two64_eq; lia).
  destruct (Z.ltb_spec (1000 - p) 300).
  - rewrite toInt64_small by (rewrite two63_eq; lia). lia.
  - rewrite toInt64_small by (rewrite two63_eq; lia). lia.
Qed.

(** Above 1000 the subtraction wraps around and the credit is negative. *)
Lemma creditWeight_wraps (p : Z) :
  defaultFullCredit < p <= two63 + defaultFullCredit ->
  creditWeight p = defaultFullCredit - p.
Proof.
  intros Hp. unfold creditWeight, defaultFullCredit, minCalSignerQueueCredit in *.
  rewrite two63_eq in Hp.
  assert (wrap64 (1000 - p) = two64 + 1000 - p) as ->.
  { unfold wrap64. rewrite two64_eq. symmetry. apply (Z.mod_unique _ _ (-1)); lia. }
  rewrite two64_eq.
  destruct (Z.ltb_spec (18446744073709551616 + 1000 - p) 300); [lia |].
  unfold toInt64. rewrite two63_eq, two64_eq.
  destruct (Z.ltb_spec (18446744073709551616 + 1000 - p) 9223372036854775808); lia.
Qed.

(** C3, amended.  For the same snapshot, store, visiting order and sort,
    two calls of [getSignerQueue] that see different values of
    [rand.Int()] return the same candidates: the two queues are
    permutations of each other. *)
Theorem getSignerQueue_same_candidates sortSort order draws1 draws2 s h queue1 h1 :
  getSignerQueue sortSort order draws1 s h = (Done queue1, h1) ->
  exists queue2,
    getSignerQueue sortSort order draws2 s h = (Done queue2, h1)
    /\ queue1 ≡ₚ queue2.
Proof.
  unfold getSignerQueue, bind.
  destruct (topStakeAddress sortSort order s h) as [[top | e |] h'];
    [| discriminate | discriminate].
  unfold ret. intros Hrun. injection Hrun as <- <-.
  eexists. split; [reflexivity |].
  rewrite !shuffle_perm. reflexivity.
Qed.

(** The queue never has more than [MaxSignerCount] addresses. *)
Lemma getSignerQueue_length sortSort order draws s h queue h1 :
  getSignerQueue sortSort order draws s h = (Done queue, h1) ->
  len queue <= MaxSignerCount (config s).
Proof.
  unfold getSignerQueue, bind.
  destruct (topStakeAddress sortSort order s h) as [[top | e |] h'] eqn:Htop;
    [| discriminate | discriminate].
  unfold ret. intros Hrun. injection Hrun as <- <-.
  unfold len. rewrite (Permutation_length (shuffle_perm draws top)).
  revert Htop. unfold topStakeAddress, bind.
  destruct (weighTally order s h) as [[tallySlice | e |] h''];
    [| discriminate | discriminate].
  cbv zeta.
  set (n := if len (sortSort tallySlice) <? toInt64 (MaxSignerCount (config s))
            then len (sortSort tallySlice) else toInt64 (MaxSignerCount (config s))).
  destruct (Z.ltb_spec n 0); [discriminate |].
  unfold ret. intros Hrun. injection Hrun as <- <-.
  rewrite length_map, length_take.
  assert (n <= toInt64 (MaxSignerCount (config s))).
  { subst n. destruct (Z.ltb_spec (len (sortSort tallySlice))
                                   (toInt64 (MaxSignerCount (config s)))); lia. }
  assert (toInt64 (MaxSignerCount (config s)) <= MaxSignerCount (config s)).
  { unfold toInt64. destruct (_ <? two63); [lia |]. rewrite two64_eq. lia. }
  lia.
Qed.

Lemma shuffle_singleton draws (a : Address) : shuffle draws [a] = [a].
Proof.
  unfold shuffle. simpl. rewrite N.mod_1_r. reflexivity.
Qed.

(** ** The header loop *)

Lemma forEach_ext {A S} (f g : S -> A -> Go S) (xs : list A) (acc : S) (h : Heap) :
  (forall a x h', f a x h' = g a x h') -> forEach f xs acc h = forEach g xs acc h.
Proof.
  intros Hfg. revert acc h. induction xs as [| x rest IH]; intros acc h; [reflexivity |].
  simpl. unfold bind. rewrite Hfg.
  destruct (g acc x h) as [[acc' | e |] h1]; [apply IH | reflexivity | reflexivity].
Qed.

Lemma applyHeader_blind (E : Externals) decoder snap header h :
  (forall payload, (decoder payload).1 = (@rlpDecodeBytes E payload).1) ->
  @applyHeader (withDecoder E decoder) snap header h = @applyHeader E snap header h.
Proof.
  intros Hsame. unfold applyHeader. simpl.
  destruct (@ecrecover E header); [| reflexivity].
  unfold bind. unfold extraPayload at 1 2. simpl.
  destruct (_ <? _)%nat; [reflexivity |].
  unfold ret at 1 3. simpl. rewrite Hsame. reflexivity.
Qed.

(** [apply] never looks at the error of the decoder: two decoders that
    leave the same struct give the same run. *)
Lemma apply_blind_to_decode_error (E : Externals) decoder order s headers h :
  (forall payload, (decoder payload).1 = (@rlpDecodeBytes E payload).1) ->
  @apply (withDecoder E decoder) order s headers h = @apply E order s headers h.
Proof.
  intros Hsame. unfold apply. destruct headers as [| first rest]; [reflexivity |].
  destruct (negb (consecutive (first :: rest))); [reflexivity |].
  destruct (negb _); [reflexivity |].
  unfold bind. destruct (copy s h) as [[snap | e |] h1]; [| reflexivity | reflexivity].
  rewrite (forEach_ext (@applyHeader (withDecoder E decoder)) (@applyHeader E))
    by (intros; apply applyHeader_blind; exact Hsame).
  reflexivity.
Qed.

(** ** copy *)

Lemma cloneMap_id {V} (m : gmap Address V) : cloneMap m = m.
Proof.
  unfold cloneMap, rangeEntries.
  rewrite <- (list_to_map_to_list m) at 2.
  rewrite <- (list_to_map_proper (reverse (map_to_list m)) (map_to_list m)).
  - generalize (map_to_list m). intros l.
    induction l as [| kv l IH] using rev_ind; [reflexivity |].
    rewrite foldl_snoc, reverse_snoc, IH. reflexivity.
  - rewrite fmap_reverse, reverse_Permutation. apply NoDup_fst_map_to_list.
  - apply reverse_Permutation.
Qed.

(** The copy points to the very tally cells of its source, and holds the
    same voters and punishments. *)
Lemma copy_keeps_tally_cells s h snap h' :
  copy s h = (Done snap, h') ->
  Tally snap = Tally s /\ Voters snap = Voters s /\ Punished snap = Punished s.
Proof.
  unfold copy, bind.
  destruct (forEach _ (rangeEntries (Votes s)) ∅ h) as [[votes | e |] h1];
    [| discriminate | discriminate].
  unfold ret. intros Hrun. injection Hrun as <- <-. simpl.
  rewrite !cloneMap_id. auto.
Qed.

(** ** The punishment counters *)

Lemma halvePunishedIn_lookup order : forall (punished : gmap Address Z) (k : Address),
  NoDup order ->
  halvePunishedIn order punished !! k
  = if decide (k ∈ order) then punished !! k ≫= halve else punished !! k.
Proof.
  induction order as [| a rest IH]; intros punished k Hnd.
  - simpl. destruct (decide (k ∈ [])) as [Hin | _]; [| reflexivity].
    apply elem_of_nil in Hin. contradiction.
  - apply NoDup_cons in Hnd as [Hnotin Hnd].
    unfold halvePunishedIn in *. simpl. rewrite IH by exact Hnd.
    destruct (decide (k = a)) as [-> | Hne].
    + rewrite (decide_False (P := a ∈ rest)) by exact Hnotin.
      rewrite (decide_True (P := a ∈ a :: rest)) by apply list_elem_of_here.
      destruct (punished !! a) as [v |] eqn:Ha; simpl; unfold halve.
      * destruct (0 <? v / 2); [apply lookup_insert_eq | apply lookup_delete_eq].
      * change (0 / 2) with 0. simpl. apply lookup_delete_eq.
    + assert ((if 0 <? default 0 (punished !! a) / 2
               then <[a := default 0 (punished !! a) / 2]> punished
               else delete a punished) !! k = punished !! k) as ->.
      { destruct (0 <? _); [apply lookup_insert_ne | apply lookup_delete_ne]; congruence. }
      destruct (decide (k ∈ rest)) as [Hin | Hout].
      * rewrite decide_True by (apply list_elem_of_further; exact Hin). reflexivity.
      * rewrite decide_False; [reflexivity |].
        intros Hin. apply elem_of_cons in Hin as [? | ?]; contradiction.
Qed.

(** X1.  The halving on an epoch block, whatever the order in which the
    runtime visits the keys: every punishment is replaced by its half,
    and an entry whose half is zero is removed.  Any visiting order that
    names each punished signer once gives the same map. *)
Theorem halvePunished_pointwise (punished : gmap Address Z) :
  halvePunished punished = omap halve punished
  /\ (forall order, NoDup order ->
        (forall k, is_Some (punished !! k) -> k ∈ order) ->
        halvePunishedIn order punished = omap halve punished).
Proof.
  assert (forall order, NoDup order ->
            (forall k, is_Some (punished !! k) -> k ∈ order) ->
            halvePunishedIn order punished = omap halve punished) as Hgen.
  { intros order Hnd Hall. apply map_eq. intros k.
    rewrite halvePunishedIn_lookup by exact Hnd. rewrite lookup_omap.
    destruct (decide (k ∈ order)) as [? | Hin]; [reflexivity |].
    destruct (punished !! k) as [v |] eqn:Hk; [| reflexivity].
    exfalso. apply Hin, Hall. eauto. }
  split; [| exact Hgen].
  change (halvePunished punished) with (halvePunishedIn (rangeKeys punished) punished).
  apply Hgen.
  - apply NoDup_fst_map_to_list.
  - intros k [v Hk]. unfold rangeKeys. apply list_elem_of_fmap.
    exists (k, v). split; [reflexivity |]. apply elem_of_map_to_list. exact Hk.
Qed.

Lemma wrap64_add_l (x y : Z) : wrap64 (wrap64 x + y) = wrap64 (x + y).
Proof. unfold wrap64. apply Zplus_mod_idemp_l. Qed.

Lemma punishMissing_lookup (punished : gmap Address Z) (x a : Address) :
  punishMissing punished x !! a
  = if decide (x = a)
    then Some (wrap64 (default 0 (punished !! a) + missingPublishCredit))
    else punished !! a.
Proof.
  unfold punishMissing. destruct (decide (x = a)) as [-> | Hne].
  - destruct (punished !! a) as [v |] eqn:Ha; rewrite lookup_insert_eq; reflexivity.
  - destruct (punished !! x); rewrite lookup_insert_ne by exact Hne; reflexivity.
Qed.

(** X2.  After the loop over the signers that missed their turn, a
    signer that is not in the list keeps its entry, and one that stands
    [n] times in it holds its former punishment (zero without an entry)
    plus [n] times [missingPublishCredit], in [uint64]. *)
Theorem punishMissing_counts (missing : list Address) :
  forall (punished : gmap Address Z) (a : Address),
    foldl punishMissing punished missing !! a
    = if missedBy a missing =? 0 then punished !! a
      else Some (wrap64 (default 0 (punished !! a)
                         + missingPublishCredit * missedBy a missing)).
Proof.
  induction missing as [| x rest IH]; intros punished a; [reflexivity |].
  simpl. rewrite IH. rewrite punishMissing_lookup.
  unfold missedBy, len. rewrite filter_cons.
  destruct (decide (x = a)) as [-> | Hne].
  - simpl. set (c := length (filter (fun x => x = a) rest)).
    destruct (Z.eqb_spec (Z.of_nat (S c)) 0) as [? | _]; [lia |].
    destruct (Z.eqb_spec (Z.of_nat c) 0) as [Hc | Hc].
    + assert (Z.of_nat (S c) = 1) as -> by lia. rewrite Z.mul_1_r. reflexivity.
    + simpl. f_equal. rewrite wrap64_add_l. f_equal. lia.
  - reflexivity.
Qed.

(** X3.  The producer of a block whose punishment is at least
    [signRewardCredit] has it lowered by exactly that amount, and loses
    its entry exactly when the punishment was [signRewardCredit]; no
    other signer's punishment changes. *)
Theorem rewardSigner_in_range (coinbase : Address) (punished : gmap Address Z) :
  (forall v, punished !! coinbase = Some v -> signRewardCredit <= v < two64 ->
     rewardSigner coinbase punished
     = if v =? signRewardCredit then delete coinbase punished
       else <[coinbase := v - signRewardCredit]> punished)
  /\ (forall a, a <> coinbase ->
        rewardSigner coinbase punished !! a = punished !! a).
Proof.
  split.
  - intros v Hv Hrange. unfold rewardSigner. rewrite Hv. cbv zeta.
    rewrite lookup_insert_eq. simpl.
    rewrite wrap64_small by (unfold signRewardCredit in *; lia).
    destruct (Z.eqb_spec v signRewardCredit) as [-> | Hne].
    + rewrite Z.sub_diag. simpl. apply delete_insert_eq.
    + destruct (Z.leb_spec (v - signRewardCredit) 0); [lia | reflexivity].
  - intros a Hne. unfold rewardSigner.
    destruct (punished !! coinbase) as [v |]; [| reflexivity].
    cbv zeta. destruct (_ <=? 0).
    + rewrite lookup_delete_ne by congruence. apply lookup_insert_ne. congruence.
    + apply lookup_insert_ne. congruence.
Qed.

(** ** The rotation of inturn *)

(** X4.  At a given header time at most one address is in turn. *)
Theorem inturn_unique (s : Snapshot) (a b : Address) (headerTime : Z) :
  inturn s a headerTime = Done true ->
  inturn s b headerTime = Done true ->
  a = b.
Proof.
  unfold inturn.
  destruct (Period (config s) =? 0); [discriminate |].
  destruct (len (Signers s) =? 0); [discriminate |].
  cbv zeta.
  destruct (len (Signers s) <=? _); [discriminate |].
  destruct (_ <? 0); [discriminate |].
  destruct (Signers s !! _) as [x |]; [| discriminate].
  destruct (N.eqb_spec x a) as [-> | _]; [| discriminate].
  destruct (N.eqb_spec a b) as [-> | _]; [reflexivity | discriminate].
Qed.

(** X5.  With a positive period and a header time that is not before the
    loop start, the answer of [inturn] repeats after one loop, that is
    after [Period] times the number of signers (as long as the later
    time stays below [2^63], where [int] changes sign). *)
Theorem inturn_periodic (s : Snapshot) (signer : Address) (headerTime : Z) :
  0 < Period (config s) ->
  0 <= LoopStartTime s <= headerTime ->
  headerTime + Period (config s) * len (Signers s) < two63 ->
  inturn s signer (headerTime + Period (config s) * len (Signers s))
  = inturn s signer headerTime.
Proof.
  intros Hperiod Htime Hmax.
  assert (0 <= len (Signers s)) as Hlen by (unfold len; lia).
  assert (two63 < two64) as H63 by reflexivity.
  assert (0 <= Period (config s) * len (Signers s)) by nia.
  unfold inturn.
  destruct (Period (config s) =? 0); [reflexivity |].
  destruct (Z.eqb_spec (len (Signers s)) 0) as [| Hn]; [reflexivity |].
  cbv zeta.
  assert (Z.rem (toInt64 (wrap64 (headerTime + Period (config s) * len (Signers s)
                                  - LoopStartTime s) / Period (config s)))
                (len (Signers s))
          = Z.rem (toInt64 (wrap64 (headerTime - LoopStartTime s) / Period (config s)))
                  (len (Signers s))) as ->; [| reflexivity].
  rewrite !wrap64_small by lia.
  replace (headerTime + Period (config s) * len (Signers s) - LoopStartTime s)
    with (headerTime - LoopStartTime s + len (Signers s) * Period (config s)) by lia.
  rewrite Z.div_add by lia.
  set (q := (headerTime - LoopStartTime s) / Period (config s)).
  assert (0 <= q) by (apply Z.div_pos; lia).
  assert (q <= headerTime - LoopStartTime s).
  { subst q. apply Z.div_le_upper_bound; [lia |]. nia. }
  assert (len (Signers s) <= Period (config s) * len (Signers s)) by nia.
  rewrite !toInt64_small by lia.
  rewrite !Z.rem_mod_nonneg by lia.
  rewrite <- (Z.mul_1_l (len (Signers s))) at 1.
  apply Z.mod_add. lia.
Qed.

(** ** The weight of a candidate *)

(** X6.  For a punishment of at most [defaultFullCredit], the weight
    that [getSignerQueue] gives a candidate is its stake times
    [max (defaultFullCredit - punishment) minCalSignerQueueCredit]; a
    non-negative stake is thus weighted with a factor between
    [minCalSignerQueueCredit] and [defaultFullCredit]. *)
Theorem tallyItemOf_weight (s : Snapshot) (address : Address) (stake0 : Z) :
  (forall p, Punished s !! address = Some p -> 0 <= p <= defaultFullCredit) ->
  addr (tallyItemOf s address stake0) = address
  /\ stake (tallyItemOf s address stake0) = specWeight stake0 (Punished s !! address)
  /\ (0 <= stake0 ->
      minCalSignerQueueCredit * stake0 <= stake (tallyItemOf s address stake0)
                                       <= defaultFullCredit * stake0).
Proof.
  intros Hrange. unfold tallyItemOf, specWeight.
  destruct (Punished s !! address) as [p |] eqn:Hp; simpl.
  - specialize (Hrange p eq_refl). rewrite creditWeight_floor by exact Hrange.
    split; [reflexivity |]. split; [reflexivity |].
    unfold defaultFullCredit, minCalSignerQueueCredit in *. intros Hs. nia.
  - split; [reflexivity |]. split; [reflexivity |].
    unfold defaultFullCredit, minCalSignerQueueCredit. intros Hs. lia.
Qed.

(** ** Runs of the store monad *)

Lemma bind_inv {A B} (m : Go A) (k : A -> Go B) h b h' :
  bind m k h = (Done b, h') ->
  exists a h1, m h = (Done a, h1) /\ k a h1 = (Done b, h').
Proof.
  unfold bind. destruct (m h) as [[a | e |] h1]; try discriminate. eauto.
Qed.

Lemma forEach_invariant {A S} (I : S -> Heap -> Prop) (body : S -> A -> Go S)
    (xs : list A) :
  (forall acc x h acc' h',
      x ∈ xs -> I acc h -> body acc x h = (Done acc', h') -> I acc' h') ->
  forall acc h r h',
    I acc h -> forEach body xs acc h = (Done r, h') -> I r h'.
Proof.
  induction xs as [| x rest IH]; intros Hstep acc h r h' Hacc Hrun.
  - injection Hrun as <- <-. exact Hacc.
  - simpl in Hrun. apply bind_inv in Hrun as (acc1 & h1 & Hbody & Hrest).
    apply (IH (fun acc x h acc' h' Hin => Hstep acc x h acc' h'
                 (list_elem_of_further _ _ _ Hin)) acc1 h1); [| exact Hrest].
    apply (Hstep acc x h); [apply list_elem_of_here | exact Hacc | exact Hbody].
Qed.

Lemma forEach_snoc_inv {A S} (body : S -> A -> Go S) (xs : list A) (x : A)
    acc h r h' :
  forEach body (xs ++ [x]) acc h = (Done r, h') ->
  exists mid hm, forEach body xs acc h = (Done mid, hm)
                 /\ body mid x hm = (Done r, h').
Proof.
  revert acc h. induction xs as [| y ys IH]; intros acc h Hrun.
  - simpl in Hrun. apply bind_inv in Hrun as (a1 & h1 & Hb & Hr).
    injection Hr as <- <-. exists acc, h. split; [reflexivity | exact Hb].
  - simpl in Hrun. apply bind_inv in Hrun as (a1 & h1 & Hb & Hr).
    destruct (IH _ _ Hr) as (mid & hm & Hm & Hl).
    exists mid, hm. split; [| exact Hl].
    simpl. rewrite (bind_done _ _ a1 h h1) by exact Hb. exact Hm.
Qed.

Lemma forEach_each_done {A S} (body : S -> A -> Go S) (xs : list A) :
  forall acc h r h',
    forEach body xs acc h = (Done r, h') ->
    forall x, x ∈ xs -> exists a ha a' ha', body a x ha = (Done a', ha').
Proof.
  induction xs as [| y ys IH]; intros acc h r h' Hrun x Hin.
  - apply elem_of_nil in Hin. contradiction.
  - simpl in Hrun. apply bind_inv in Hrun as (a1 & h1 & Hb & Hr).
    apply elem_of_cons in Hin as [-> | Hin]; [eauto 6 | eauto].
Qed.

Lemma bigSub_length (t x y : loc) h h' :
  bigSub t x y h = (Done tt, h') -> length h' = length h.
Proof.
  unfold bigSub, bind, bigGet, bigSet.
  destruct (h !! x); [| discriminate]. destruct (h !! y); [| discriminate].
  destruct (h !! t); [| discriminate].
  intros Hrun. injection Hrun as <-. apply length_insert.
Qed.

Lemma bigAdd_length (t x y : loc) h h' :
  bigAdd t x y h = (Done tt, h') -> length h' = length h.
Proof.
  unfold bigAdd, bind, bigGet, bigSet.
  destruct (h !! x); [| discriminate]. destruct (h !! y); [| discriminate].
  destruct (h !! t); [| discriminate].
  intros Hrun. injection Hrun as <-. apply length_insert.
Qed.

(** ** The expiry loop only removes *)

Lemma clearVote_length snap vote h snap' h' :
  clearVote snap vote h = (Done snap', h') -> length h' = length h.
Proof.
  unfold clearVote. intros Hrun.
  apply bind_inv in Hrun as (t & h1 & Hrecv & Hrun).
  unfold receiver in Hrecv. destruct (Tally snap !! Candidate vote); [| discriminate].
  injection Hrecv as <- <-.
  apply bind_inv in Hrun as ([] & h2 & Hsub & Hrun).
  apply bigSub_length in Hsub.
  apply bind_inv in Hrun as (v & h3 & Hget & Hrun).
  unfold bigGet in Hget. destruct (h2 !! _); [| discriminate].
  injection Hget as <- <-. injection Hrun as _ <-. exact Hsub.
Qed.

Lemma cleared_below snap vote remaining :
  Voters (cleared snap vote remaining) ⊆ Voters snap
  /\ Votes (cleared snap vote remaining) ⊆ Votes snap
  /\ Tally (cleared snap vote remaining) ⊆ Tally snap
  /\ frameOf (cleared snap vote remaining) = frameOf snap.
Proof.
  unfold cleared, frameOf. simpl. repeat split; try apply delete_subseteq.
  destruct (remaining =? 0); [apply delete_subseteq | reflexivity].
Qed.

Lemma expireVotes_below cfg order snap h snap' h' :
  expireVotes cfg order snap h = (Done snap', h') ->
  Voters snap' ⊆ Voters snap
  /\ Votes snap' ⊆ Votes snap
  /\ Tally snap' ⊆ Tally snap
  /\ frameOf snap' = frameOf snap
  /\ length h' = length h.
Proof.
  revert snap h. induction order as [| voter rest IH]; intros snap h Hrun.
  - injection Hrun as <- <-. repeat split; reflexivity.
  - simpl in Hrun. destruct (Voters snap !! voter) as [voteNumber |]; [| eauto].
    destruct (atThreshold cfg snap).
    { injection Hrun as <- <-. repeat split; reflexivity. }
    destruct (expired cfg snap voteNumber); [| eauto].
    destruct (Votes snap !! voter) as [vote |]; [| eauto].
    apply bind_inv in Hrun as (snap1 & h1 & Hclear & Hrun).
    pose proof (clearVote_length _ _ _ _ _ Hclear) as Hlen.
    apply clearVote_inv in Hclear as [remaining ->].
    destruct (cleared_below snap vote remaining) as (Hv & Hvo & Ht & Hf).
    destruct (IH _ _ Hrun) as (Hv' & Hvo' & Ht' & Hf' & Hlen').
    repeat split; try (etrans; eassumption); congruence.
Qed.

(** ** The final sweep *)

Lemma sweep_over (l : list (Address * loc)) :
  forall acc h acc' h',
    forEach (fun snap kv =>
               v <- bigGet kv.2 ;;
               if v <=? 0 then ret (setTally (delete kv.1 (Tally snap)) snap)
               else ret snap) l acc h = (Done acc', h') ->
    h' = h
    /\ Votes acc' = Votes acc /\ Voters acc' = Voters acc /\ frameOf acc' = frameOf acc
    /\ (forall c q, (c, q) ∈ l -> is_Some (h !! q))
    /\ (forall c p, Tally acc' !! c = Some p ->
          Tally acc !! c = Some p /\ forall q, (c, q) ∈ l -> 0 < cellValue h q)
    /\ (forall c p, Tally acc !! c = Some p ->
          (forall q, (c, q) ∈ l -> 0 < cellValue h q) -> Tally acc' !! c = Some p).
Proof.
  induction l as [| [c0 q0] rest IH]; intros acc h acc' h' Hrun.
  - injection Hrun as <- <-. repeat split; try reflexivity.
    + intros c q Hin. apply elem_of_nil in Hin. contradiction.
    + exact H.
    + intros q Hin. apply elem_of_nil in Hin. contradiction.
    + auto.
  - simpl in Hrun. apply bind_inv in Hrun as (acc1 & h1 & Hbody & Hrest).
    apply bind_inv in Hbody as (v & h0 & Hget & Hbody).
    unfold bigGet in Hget. destruct (h !! q0) as [v0 |] eqn:Hq0; [| discriminate].
    injection Hget as <- <-.
    assert (cellValue h q0 = v0) as Hval by (unfold cellValue; rewrite Hq0; reflexivity).
    destruct (Z.leb_spec v0 0) as [Hle | Hgt]; injection Hbody as <- <-;
      destruct (IH _ _ _ _ Hrest) as (-> & Hvo & Hv & Hf & Hvalid & Hkept & Hkeep).
    + split; [reflexivity |]. split; [exact Hvo |]. split; [exact Hv |].
      split; [exact Hf |]. split; [| split].
      * intros c q Hin. apply elem_of_cons in Hin as [Heq | Hin]; [| eauto].
        injection Heq as -> ->. eauto.
      * intros c p Hc. destruct (Hkept c p Hc) as [Hin Hpos]. simpl in Hin.
        apply lookup_delete_Some in Hin as [Hne Hin]. split; [exact Hin |].
        intros q Hq. apply elem_of_cons in Hq as [Heq | Hq]; [| eauto].
        injection Heq as -> ->. congruence.
      * intros c p Hc Hpos. apply Hkeep.
        -- simpl. apply lookup_delete_Some. split; [| exact Hc].
           intros ->. specialize (Hpos q0 (list_elem_of_here _ _)). lia.
        -- intros q Hq. apply Hpos. apply list_elem_of_further. exact Hq.
    + split; [reflexivity |]. split; [exact Hvo |]. split; [exact Hv |].
      split; [exact Hf |]. split; [| split].
      * intros c q Hin. apply elem_of_cons in Hin as [Heq | Hin]; [| eauto].
        injection Heq as -> ->. eauto.
      * intros c p Hc. destruct (Hkept c p Hc) as [Hin Hpos]. split; [exact Hin |].
        intros q Hq. apply elem_of_cons in Hq as [Heq | Hq]; [| eauto].
        injection Heq as -> ->. lia.
      * intros c p Hc Hpos. apply Hkeep; [exact Hc |].
        intros q Hq. apply Hpos. apply list_elem_of_further. exact Hq.
Qed.

Lemma sweep_total (l : list (Address * loc)) :
  forall acc h,
    (forall c q, (c, q) ∈ l -> is_Some (h !! q)) ->
    exists acc',
      forEach (fun snap kv =>
                 v <- bigGet kv.2 ;;
                 if v <=? 0 then ret (setTally (delete kv.1 (Tally snap)) snap)
                 else ret snap) l acc h = (Done acc', h).
Proof.
  induction l as [| [c0 q0] rest IH]; intros acc h Hvalid.
  - exists acc. reflexivity.
  - destruct (Hvalid c0 q0 (list_elem_of_here _ _)) as [v Hv].
    assert (exists acc1,
              (v <- bigGet q0 ;;
               if v <=? 0 then ret (setTally (delete c0 (Tally acc)) acc)
               else ret acc) h = (Done acc1, h)) as [acc1 Hbody].
    { unfold bind, bigGet. cbv beta. rewrite Hv. destruct (v <=? 0); eexists; reflexivity. }
    simpl. rewrite (bind_done _ _ acc1 h h) by exact Hbody.
    apply IH. intros c q Hin. apply (Hvalid c q). apply list_elem_of_further. exact Hin.
Qed.

Lemma sweepTally_inv snap h snap' h' :
  sweepTally snap h = (Done snap', h') ->
  h' = h
  /\ Votes snap' = Votes snap /\ Voters snap' = Voters snap
  /\ frameOf snap' = frameOf snap
  /\ forall c p, Tally snap' !! c = Some p
                 <-> Tally snap !! c = Some p /\ exists v, h !! p = Some v /\ 0 < v.
Proof.
  unfold sweepTally, rangeEntries. intros Hrun.
  destruct (sweep_over _ _ _ _ _ Hrun) as (-> & Hvo & Hv & Hf & Hvalid & Hkept & Hkeep).
  split; [reflexivity |]. split; [exact Hvo |]. split; [exact Hv |].
  split; [exact Hf |]. intros c p. split.
  - intros Hc. destruct (Hkept c p Hc) as [Hin Hpos]. split; [exact Hin |].
    assert ((c, p) ∈ map_to_list (Tally snap)) as Hel
      by (apply elem_of_map_to_list; exact Hin).
    destruct (Hvalid c p Hel) as [v Hcell]. exists v. split; [exact Hcell |].
    specialize (Hpos p Hel). unfold cellValue in Hpos. rewrite Hcell in Hpos. exact Hpos.
  - intros [Hin (v & Hcell & Hpos)]. apply Hkeep; [exact Hin |].
    intros q Hq. apply elem_of_map_to_list in Hq.
    assert (q = p) as -> by congruence.
    unfold cellValue. rewrite Hcell. exact Hpos.
Qed.

(** X7.  The final loop of [apply] over the tally returns, writes
    nothing to the store, and keeps exactly the entries whose value is
    positive; votes, voters and the other fields are untouched. *)
Theorem sweepTally_keeps_positive snap h :
  (forall c p, Tally snap !! c = Some p -> is_Some (h !! p)) ->
  exists snap',
    sweepTally snap h = (Done snap', h)
    /\ Tally snap' = filter (fun kv => 0 < cellValue h kv.2) (Tally snap)
    /\ Votes snap' = Votes snap /\ Voters snap' = Voters snap
    /\ frameOf snap' = frameOf snap.
Proof.
  intros Hvalid.
  destruct (sweep_total (map_to_list (Tally snap)) snap h) as [snap' Hrun].
  { intros c q Hin. apply elem_of_map_to_list in Hin. eauto. }
  exists snap'. split; [exact Hrun |].
  destruct (sweepTally_inv _ _ _ _ Hrun) as (_ & Hvo & Hv & Hf & Htally).
  split; [| auto]. apply map_eq. intros c.
  apply option_eq. intros p. rewrite Htally. rewrite map_lookup_filter_Some. simpl.
  split.
  - intros [Hin (v & Hcell & Hpos)]. split; [exact Hin |].
    unfold cellValue. rewrite Hcell. exact Hpos.
  - intros [Hin Hpos]. split; [exact Hin |].
    destruct (Hvalid c p Hin) as [v Hcell]. exists v. split; [exact Hcell |].
    unfold cellValue in Hpos. rewrite Hcell in Hpos. exact Hpos.
Qed.

(** ** What copy allocates *)

Lemma copy_votes_over (l : list (Address * Vote)) :
  forall (acc : gmap Address Vote) (h : Heap),
    NoDup l.*1 ->
    (forall k v, (k, v) ∈ l -> is_Some (h !! Stake v)) ->
    exists acc' ext,
      forEach (fun acc kv =>
                 let vote : Vote := kv.2 in
                 v <- bigGet (Stake vote) ;;
                 p <- bigNew v ;;
                 ret (<[kv.1 := mkVote (Voter vote) (Candidate vote) p]> acc))
              l acc h = (Done acc', h ++ ext)
      /\ length ext = length l
      /\ (forall k, k ∉ l.*1 -> acc' !! k = acc !! k)
      /\ (forall k v, (k, v) ∈ l ->
            exists v', acc' !! k = Some v'
                       /\ Voter v' = Voter v /\ Candidate v' = Candidate v
                       /\ (length h <= Stake v' < length h + length l)%nat
                       /\ (h ++ ext) !! Stake v' = h !! Stake v).
Proof.
  induction l as [| [k0 v0] rest IH]; intros acc h Hnd Hvalid.
  - exists acc, []. rewrite app_nil_r. split; [reflexivity |]. split; [reflexivity |].
    split; [reflexivity |]. intros k v Hin. apply elem_of_nil in Hin. contradiction.
  - simpl in Hnd. apply NoDup_cons in Hnd as [Hfresh Hnd].
    destruct (Hvalid k0 v0 (list_elem_of_here _ _)) as [x Hx].
    pose proof (lookup_lt_Some _ _ _ Hx) as Hlt.
    destruct (IH (<[k0 := mkVote (Voter v0) (Candidate v0) (length h)]> acc) (h ++ [x]) Hnd)
      as (acc' & ext & Hrun & Hlen & Hout & Hin).
    { intros k v Hkv.
      destruct (Hvalid k v (list_elem_of_further _ _ _ Hkv)) as [y Hy].
      exists y. apply lookup_app_l_Some. exact Hy. }
    exists acc', ([x] ++ ext). split; [| split; [| split]].
    + simpl forEach.
      rewrite (bind_done _ _ (<[k0 := mkVote (Voter v0) (Candidate v0) (length h)]> acc)
                 h (h ++ [x])).
      * rewrite app_assoc. exact Hrun.
      * simpl. unfold bind, bigGet, bigNew. cbv beta. rewrite Hx. reflexivity.
    + simpl. rewrite Hlen. reflexivity.
    + intros k Hk. simpl in Hk. apply not_elem_of_cons in Hk as [Hne Hk].
      rewrite Hout by exact Hk. apply lookup_insert_ne. congruence.
    + intros k v Hkv. apply elem_of_cons in Hkv as [Heq | Hkv].
      * injection Heq as -> ->. exists (mkVote (Voter v0) (Candidate v0) (length h)).
        split; [rewrite Hout by exact Hfresh; apply lookup_insert_eq |].
        simpl. split; [reflexivity |]. split; [reflexivity |]. split; [lia |].
        rewrite Hx. rewrite lookup_app_r by lia. rewrite Nat.sub_diag. reflexivity.
      * destruct (Hin k v Hkv) as (v' & Hv' & Hvoter & Hcand & Hrange & Hcell).
        exists v'. split; [exact Hv' |]. split; [exact Hvoter |]. split; [exact Hcand |].
        rewrite length_app in Hrange. simpl in Hrange. split; [simpl; lia |].
        rewrite app_assoc. rewrite Hcell.
        destruct (Hvalid k v (list_elem_of_further _ _ _ Hkv)) as [y Hy].
        rewrite Hy. apply lookup_app_l_Some. exact Hy.
Qed.

Lemma copy_fields s h c h' :
  copy s h = (Done c, h') ->
  frameOf c = frameOf s /\ Tally c = Tally s /\ Voters c = Voters s.
Proof.
  unfold copy. intros Hrun. apply bind_inv in Hrun as (votes & h1 & _ & Hret).
  injection Hret as <- <-. unfold frameOf. simpl. rewrite !cloneMap_id. auto.
Qed.

Lemma copy_votes_from s h c h' :
  copy s h = (Done c, h') ->
  forall k v', Votes c !! k = Some v' ->
    exists v, Votes s !! k = Some v
              /\ Voter v' = Voter v /\ Candidate v' = Candidate v.
Proof.
  unfold copy. intros Hrun. apply bind_inv in Hrun as (votes & h1 & Hloop & Hret).
  injection Hret as <- <-. simpl.
  revert Hloop.
  apply (forEach_invariant
           (fun (acc : gmap Address Vote) (_ : Heap) =>
              forall k v', acc !! k = Some v' ->
                exists v, Votes s !! k = Some v
                          /\ Voter v' = Voter v /\ Candidate v' = Candidate v)).
  - intros acc [k0 v0] h0 acc' h0' Hin Hacc Hbody.
    apply elem_of_map_to_list in Hin.
    apply bind_inv in Hbody as (x & h2 & _ & Hbody).
    apply bind_inv in Hbody as (p & h3 & _ & Hbody).
    injection Hbody as <- <-. simpl. intros k v' Hk.
    apply lookup_insert_Some in Hk as [[<- <-] | [_ Hk]]; [| eauto].
    exists v0. auto.
  - intros k v' Hk. rewrite lookup_empty in Hk. discriminate.
Qed.

(** X8.  [copy] returns when every stake of the source has a cell.  It
    allocates one new cell for each vote and writes to no old one; the
    copy has the fields, the tally and the voters of the source, and for
    each voter a vote with the same voter and candidate whose stake lies
    in a new cell that holds the value of the source's stake. *)
Theorem copy_deep_copies_stakes s h :
  (forall k v, Votes s !! k = Some v -> is_Some (h !! Stake v)) ->
  exists c ext,
    copy s h = (Done c, h ++ ext)
    /\ length ext = size (Votes s)
    /\ frameOf c = frameOf s /\ Tally c = Tally s /\ Voters c = Voters s
    /\ (forall k, Votes s !! k = None -> Votes c !! k = None)
    /\ (forall k v, Votes s !! k = Some v ->
          exists v', Votes c !! k = Some v'
                     /\ Voter v' = Voter v /\ Candidate v' = Candidate v
                     /\ (length h <= Stake v')%nat
                     /\ (h ++ ext) !! Stake v' = h !! Stake v).
Proof.
  intros Hvalid.
  destruct (copy_votes_over (map_to_list (Votes s)) ∅ h) as (votes & ext & Hrun & Hlen & Hout & Hin).
  { apply NoDup_fst_map_to_list. }
  { intros k v Hkv. apply elem_of_map_to_list in Hkv. eauto. }
  assert (copy s h
          = (Done (mkSnapshot (config s) (Number s) (Hash s) (Signers s) votes
                              (cloneMap (Tally s)) (cloneMap (Voters s))
                              (cloneMap (Punished s)) (HeaderTime s) (LoopStartTime s)),
             h ++ ext)) as Hcopy.
  { unfold copy, rangeEntries. rewrite (bind_done _ _ votes h (h ++ ext)) by exact Hrun.
    reflexivity. }
  eexists _, ext. split; [exact Hcopy |].
  split; [rewrite Hlen; apply length_map_to_list |].
  destruct (copy_fields _ _ _ _ Hcopy) as (Hf & Ht & Hv).
  split; [exact Hf |]. split; [exact Ht |]. split; [exact Hv |]. simpl. split.
  - intros k Hk. rewrite Hout; [apply lookup_empty |].
    intros Hel. apply list_elem_of_fmap in Hel as ([k' v] & -> & Hel).
    apply elem_of_map_to_list in Hel. simpl in Hk. congruence.
  - intros k v Hk.
    destruct (Hin k v) as (v' & Hv' & Hvoter & Hcand & Hrange & Hcell).
    { apply elem_of_map_to_list. exact Hk. }
    exists v'. repeat split; try assumption. lia.
Qed.

(** ** The vote loops of a header *)

Lemma dealNewVote_inv number snap vote h snap' h' :
  dealNewVote number snap vote h = (Done snap', h') ->
  frameOf snap' = frameOf snap
  /\ Votes snap' = <[Voter vote := mkVote (Voter vote) (Candidate vote) (Stake vote)]>
                     (Votes snap)
  /\ Voters snap' = <[Voter vote := number]> (Voters snap)
  /\ Tally snap' = match Tally snap !! Candidate vote with
                   | Some _ => Tally snap
                   | None => <[Candidate vote := Stake vote]> (Tally snap)
                   end
  /\ length h' = length h.
Proof.
  unfold dealNewVote. intros Hrun.
  apply bind_inv in Hrun as ([] & h1 & Hold & Hrun).
  assert (length h1 = length h) as Hlen1.
  { destruct (Votes snap !! Voter vote) as [lastVote |].
    - apply bind_inv in Hold as (t & h0 & Hrecv & Hsub).
      unfold receiver in Hrecv. destruct (Tally snap !! Candidate lastVote); [| discriminate].
      injection Hrecv as <- <-. apply bigSub_length in Hsub. exact Hsub.
    - injection Hold as <-. reflexivity. }
  apply bind_inv in Hrun as (snap1 & h2 & Hnew & Hrun).
  injection Hrun as <- <-.
  destruct (Tally snap !! Candidate vote) as [t |].
  - apply bind_inv in Hnew as ([] & h3 & Hadd & Hret). injection Hret as <- <-.
    apply bigAdd_length in Hadd. unfold frameOf. simpl.
    repeat split; congruence.
  - injection Hnew as <- <-. unfold frameOf. simpl. repeat split; congruence.
Qed.

Lemma dealModifiedVote_inv snap txVote h snap' h' :
  dealModifiedVote snap txVote h = (Done snap', h') ->
  frameOf snap' = frameOf snap
  /\ Voters snap' = Voters snap
  /\ Tally snap' = Tally snap
  /\ Votes snap' = match Votes snap !! Voter txVote with
                   | Some lastVote =>
                       <[Voter txVote := mkVote (Voter txVote) (Candidate lastVote)
                                                (Stake txVote)]> (Votes snap)
                   | None => Votes snap
                   end
  /\ length h' = length h.
Proof.
  unfold dealModifiedVote. intros Hrun.
  destruct (Votes snap !! Voter txVote) as [lastVote |].
  - apply bind_inv in Hrun as (t & h0 & Hrecv & Hrun).
    unfold receiver in Hrecv. destruct (Tally snap !! Candidate lastVote); [| discriminate].
    injection Hrecv as <- <-.
    apply bind_inv in Hrun as ([] & h1 & Hsub & Hrun).
    apply bind_inv in Hrun as ([] & h2 & Hadd & Hret).
    injection Hret as <- <-.
    apply bigSub_length in Hsub. apply bigAdd_length in Hadd.
    unfold frameOf. simpl. repeat split; congruence.
  - injection Hrun as <- <-. repeat split; reflexivity.
Qed.

Lemma filter_snoc_voter (a : Address) (votes : list Vote) (vote : Vote) :
  lastVoteOf a (votes ++ [vote])
  = if decide (Voter vote = a) then Some vote else lastVoteOf a votes.
Proof.
  unfold lastVoteOf. rewrite filter_app, filter_cons, filter_nil.
  destruct (decide (Voter vote = a)).
  - apply last_snoc.
  - rewrite app_nil_r. reflexivity.
Qed.

Lemma dealNewVotes_over number (votes : list Vote) :
  forall snap h snap' h',
    forEach (dealNewVote number) votes snap h = (Done snap', h') ->
    frameOf snap' = frameOf snap
    /\ length h' = length h
    /\ forall a,
         Votes snap' !! a
         = match lastVoteOf a votes with
           | Some v => Some (mkVote (Voter v) (Candidate v) (Stake v))
           | None => Votes snap !! a
           end
         /\ Voters snap' !! a
            = match lastVoteOf a votes with
              | Some _ => Some number
              | None => Voters snap !! a
              end.
Proof.
  induction votes as [| vote rest IH] using rev_ind; intros snap h snap' h' Hrun.
  - injection Hrun as <- <-. repeat split; reflexivity.
  - apply forEach_snoc_inv in Hrun as (mid & hm & Hrest & Hlast).
    destruct (IH _ _ _ _ Hrest) as (Hf & Hlen & Hmaps).
    destruct (dealNewVote_inv _ _ _ _ _ _ Hlast) as (Hf' & Hvotes & Hvoters & _ & Hlen').
    split; [congruence |]. split; [congruence |].
    intros a. rewrite filter_snoc_voter. rewrite Hvotes, Hvoters.
    destruct (Hmaps a) as [Hva Hvra].
    destruct (decide (Voter vote = a)) as [<- | Hne].
    + rewrite !lookup_insert_eq. auto.
    + rewrite !lookup_insert_ne by exact Hne. auto.
Qed.


Lemma dealModifiedVotes_over (txVotes : list Vote) snap h snap' h' :
  forEach dealModifiedVote txVotes snap h = (Done snap', h') ->
  frameOf snap' = frameOf snap
  /\ Voters snap' = Voters snap
  /\ Tally snap' = Tally snap
  /\ length h' = length h
  /\ (forall k, is_Some (Votes snap' !! k) <-> is_Some (Votes snap !! k))
  /\ (forall k v', Votes snap' !! k = Some v' ->
         exists v, Votes snap !! k = Some v /\ Candidate v' = Candidate v).
Proof.
  apply (forEach_invariant
           (fun acc hx =>
              frameOf acc = frameOf snap
              /\ Voters acc = Voters snap
              /\ Tally acc = Tally snap
              /\ length hx = length h
              /\ (forall k, is_Some (Votes acc !! k) <-> is_Some (Votes snap !! k))
              /\ (forall k v', Votes acc !! k = Some v' ->
                     exists v, Votes snap !! k = Some v /\ Candidate v' = Candidate v))).
  - intros acc tx hx acc' hx' _ (Hf & Hv & Ht & Hlen & Hdom & Hcand) Hbody.
    destruct (dealModifiedVote_inv _ _ _ _ _ Hbody) as (Hf' & Hv' & Ht' & Hvotes & Hlen').
    split; [congruence |]. split; [congruence |]. split; [congruence |].
    split; [congruence |]. rewrite Hvotes.
    destruct (Votes acc !! Voter tx) as [lastVote |] eqn:Hlast; [| auto].
    split.
    + intros k. rewrite <- Hdom. destruct (decide (Voter tx = k)) as [<- | Hne].
      * rewrite lookup_insert_eq, Hlast. split; eauto.
      * rewrite lookup_insert_ne by exact Hne. reflexivity.
    + intros k v' Hk. apply lookup_insert_Some in Hk as [[<- <-] | [_ Hk]]; [| eauto].
      simpl. eauto.
  - repeat split; try reflexivity; eauto.
Qed.

(** X10.  The loop over the modified votes of a header
    leaves the voters' records, the tally map and the other fields as
    they are, allocates no cell, adds or removes no vote, and changes no
    voter's candidate. *)
Theorem dealModifiedVotes_keep_candidates (txVotes : list Vote) snap h snap' h' :
  forEach dealModifiedVote txVotes snap h = (Done snap', h') ->
  Voters snap' = Voters snap
  /\ Tally snap' = Tally snap
  /\ frameOf snap' = frameOf snap
  /\ length h' = length h
  /\ dom (Votes snap') = dom (Votes snap)
  /\ (forall k v', Votes snap' !! k = Some v' ->
         exists v, Votes snap !! k = Some v /\ Candidate v' = Candidate v).
Proof.
  intros Hrun.
  destruct (dealModifiedVotes_over _ _ _ _ _ Hrun) as (Hf & Hv & Ht & Hlen & Hdom & Hcand).
  split; [exact Hv |]. split; [exact Ht |]. split; [exact Hf |].
  split; [exact Hlen |]. split; [| exact Hcand].
  apply set_eq. intros k. rewrite !elem_of_dom. apply Hdom.
Qed.

(** ** One header *)

Lemma allocVotes_over (ds : list VoteData) :
  forall acc h,
    exists tl ext,
      forEach (fun acc d => v <- allocVote d ;; ret (acc ++ [v])) ds acc h
      = (Done (acc ++ tl), h ++ ext)
      /\ match ds with
         | [] => tl = []
         | d :: _ => exists tl', tl = mkVote (dVoter d) (dCandidate d) (length h) :: tl'
         end.
Proof.
  induction ds as [| d rest IH]; intros acc h.
  - exists [], []. rewrite !app_nil_r. split; reflexivity.
  - destruct (IH (acc ++ [mkVote (dVoter d) (dCandidate d) (length h)]) (h ++ [dStake d]))
      as (tl & ext & Hrun & _).
    exists (mkVote (dVoter d) (dCandidate d) (length h) :: tl), ([dStake d] ++ ext).
    split; [| eauto]. simpl forEach.
    rewrite (bind_done _ _ (acc ++ [mkVote (dVoter d) (dCandidate d) (length h)])
               h (h ++ [dStake d])) by reflexivity.
    rewrite app_assoc, Hrun, <- app_assoc. reflexivity.
Qed.

Lemma allocExtra_run (d : Payload.t) h :
  exists hx h',
    allocExtra d h = (Done hx, h')
    /\ HeaderExtra.LoopStartTime hx = Payload.LoopStartTime d
    /\ HeaderExtra.SignerQueue hx = Payload.SignerQueue d
    /\ HeaderExtra.SignerMissing hx = Payload.SignerMissing d
    /\ match Payload.CurrentBlockVotes d with
       | [] => HeaderExtra.CurrentBlockVotes hx = []
       | v :: _ => exists tl, HeaderExtra.CurrentBlockVotes hx
                              = mkVote (dVoter v) (dCandidate v) (length h) :: tl
       end.
Proof.
  unfold allocExtra, allocVotes.
  destruct (allocVotes_over (Payload.CurrentBlockVotes d) [] h) as (cur & ext1 & Hcur & Hhead).
  destruct (allocVotes_over (Payload.ModifyPredecessorVotes d) [] (h ++ ext1))
    as (pre & ext2 & Hpre & _).
  simpl in Hcur, Hpre.
  rewrite (bind_done _ _ cur h (h ++ ext1)) by exact Hcur.
  rewrite (bind_done _ _ pre (h ++ ext1) ((h ++ ext1) ++ ext2)) by exact Hpre.
  eexists _, _. split; [reflexivity |]. simpl. auto.
Qed.

Lemma allocExtra_inv (d : Payload.t) h r h' :
  allocExtra d h = (r, h') ->
  exists hx, r = Done hx
             /\ HeaderExtra.LoopStartTime hx = Payload.LoopStartTime d
             /\ HeaderExtra.SignerQueue hx = Payload.SignerQueue d
             /\ HeaderExtra.SignerMissing hx = Payload.SignerMissing d.
Proof.
  destruct (allocExtra_run d h) as (hx & h1 & Hrun & Hl & Hq & Hm & _).
  rewrite Hrun. intros Heq. injection Heq as <- <-. eauto.
Qed.

Lemma extraPayload_inv `{Externals} header h payload h' :
  extraPayload header h = (Done payload, h') ->
  payload = payloadBytes header /\ h' = h
  /\ (extraVanity + extraSeal <= length (Header.Extra header))%nat.
Proof.
  unfold extraPayload, payloadBytes.
  destruct (Nat.ltb_spec (length (Header.Extra header)) (extraVanity + extraSeal));
    [discriminate |].
  intros Hrun. injection Hrun as <- <-. auto.
Qed.

Lemma keyed_insert snap (vote : Vote) :
  keyed snap -> forall k v, <[Voter vote := vote]> (Votes snap) !! k = Some v -> Voter v = k.
Proof.
  intros Hkey k v Hk. apply lookup_insert_Some in Hk as [[<- <-] | [_ Hk]]; eauto.
Qed.

Lemma dealNewVote_keyed number snap vote h snap' h' :
  dealNewVote number snap vote h = (Done snap', h') -> keyed snap -> keyed snap'.
Proof.
  intros Hrun Hkey. destruct (dealNewVote_inv _ _ _ _ _ _ Hrun) as (_ & Hvotes & _).
  intros k v. rewrite Hvotes.
  apply (keyed_insert snap (mkVote (Voter vote) (Candidate vote) (Stake vote)) Hkey).
Qed.

Lemma dealModifiedVote_keyed snap txVote h snap' h' :
  dealModifiedVote snap txVote h = (Done snap', h') -> keyed snap -> keyed snap'.
Proof.
  intros Hrun Hkey. destruct (dealModifiedVote_inv _ _ _ _ _ Hrun) as (_ & _ & _ & Hvotes & _).
  intros k v. rewrite Hvotes. destruct (Votes snap !! Voter txVote) as [lastVote |].
  - apply (keyed_insert snap (mkVote (Voter txVote) (Candidate lastVote) (Stake txVote)) Hkey).
  - apply Hkey.
Qed.

Lemma applyHeader_inv `{Externals} snap header h snap' h' :
  applyHeader snap header h = (Done snap', h') ->
  let d := (rlpDecodeBytes (payloadBytes header)).1 in
  (exists a, ecrecover header = inl a)
  /\ (extraVanity + extraSeal <= length (Header.Extra header))%nat
  /\ Epoch (config snap) <> 0
  /\ config snap' = config snap /\ Number snap' = Number snap /\ Hash snap' = Hash snap
  /\ HeaderTime snap' = Uint64 (Header.Time header)
  /\ LoopStartTime snap' = Payload.LoopStartTime d
  /\ Signers snap' = Payload.SignerQueue d
  /\ Punished snap'
     = rewardSigner (Header.Coinbase header)
         (foldl punishMissing
                (if Uint64 (Header.Number header) mod Epoch (config snap) =? 0
                 then halvePunished (Punished snap) else Punished snap)
                (Payload.SignerMissing d))
  /\ (keyed snap -> keyed snap').
Proof.
  unfold applyHeader. destruct (ecrecover header) as [a | err]; [| discriminate].
  intros Hrun.
  apply bind_inv in Hrun as (payload & h1 & Hpay & Hrun).
  apply extraPayload_inv in Hpay as (-> & -> & Hlen).
  apply bind_inv in Hrun as (hx & h2 & Halloc & Hrun).
  apply allocExtra_inv in Halloc as (hx' & Heq & Hlst & Hsq & Hsm).
  injection Heq as <-.
  apply bind_inv in Hrun as (s1 & h3 & Hnew & Hrun).
  apply bind_inv in Hrun as (s2 & h4 & Hmod & Hrun).
  apply bind_inv in Hrun as (s3 & h5 & Hhalve & Hrun).
  injection Hrun as <- <-.
  destruct (dealNewVotes_over _ _ _ _ _ _ Hnew) as (Hf1 & _ & _).
  destruct (dealModifiedVotes_over _ _ _ _ _ Hmod) as (Hf2 & _).
  unfold frameOf in Hf1, Hf2. simpl in Hf1.
  injection Hf1 as Hc1 Hn1 Hh1 Hs1 Hp1 Ht1 Hl1.
  injection Hf2 as Hc2 Hn2 Hh2 Hs2 Hp2 Ht2 Hl2.
  assert (keyed snap -> keyed s2) as Hkeyed.
  { intros Hkey.
    revert Hmod. apply (forEach_invariant (fun acc _ => keyed acc)).
    - intros acc x hx0 acc' hx1 _ Hacc Hb. exact (dealModifiedVote_keyed _ _ _ _ _ Hb Hacc).
    - revert Hnew. apply (forEach_invariant (fun acc _ => keyed acc)).
      + intros acc x hx0 acc' hx1 _ Hacc Hb. exact (dealNewVote_keyed _ _ _ _ _ _ Hb Hacc).
      + exact Hkey. }
  assert (config s2 = config snap) as Hcfg by congruence.
  rewrite Hcfg in Hhalve.
  destruct (Z.eqb_spec (Epoch (config snap)) 0) as [| Hepoch]; [discriminate |].
  cbv zeta. split; [eauto |]. split; [exact Hlen |]. split; [exact Hepoch |].
  destruct (Uint64 (Header.Number header) mod Epoch (config snap) =? 0);
    injection Hhalve as <- <-; simpl;
    (split; [congruence |]); (split; [congruence |]); (split; [congruence |]);
    (split; [congruence |]); (split; [congruence |]); (split; [congruence |]);
    (split; [rewrite Hsm; congruence | exact Hkeyed]).
Qed.

(** ** Where errors come from *)

Lemma noFail_ret {A} (a : A) : noFail (ret a).
Proof. intros h e h' Hrun. discriminate. Qed.

Lemma noFail_panic {A} : noFail (@panic A).
Proof. intros h e h' Hrun. discriminate. Qed.

Lemma noFail_bigGet p : noFail (bigGet p).
Proof. intros h e h'. unfold bigGet. destruct (h !! p); discriminate. Qed.

Lemma noFail_bigSet p v : noFail (bigSet p v).
Proof. intros h e h'. unfold bigSet. destruct (h !! p); discriminate. Qed.

Lemma noFail_bigNew v : noFail (bigNew v).
Proof. intros h e h'. discriminate. Qed.

Lemma noFail_bind {A B} (m : Go A) (k : A -> Go B) :
  noFail m -> (forall a, noFail (k a)) -> noFail (bind m k).
Proof.
  intros Hm Hk h e h'. unfold bind.
  destruct (m h) as [[a | e0 |] h1] eqn:Hrun.
  - apply Hk.
  - exfalso. exact (Hm _ _ _ Hrun).
  - discriminate.
Qed.

Lemma noFail_forEach {A S} (body : S -> A -> Go S) (xs : list A) :
  (forall acc x, noFail (body acc x)) -> forall acc, noFail (forEach body xs acc).
Proof.
  intros Hbody. induction xs as [| x rest IH]; intros acc.
  - apply noFail_ret.
  - simpl. apply noFail_bind; [apply Hbody | exact IH].
Qed.

Lemma noFail_receiver (m : gmap Address loc) k : noFail (receiver m k).
Proof. unfold receiver. destruct (m !! k); [apply noFail_ret | apply noFail_panic]. Qed.

Lemma noFail_bigSub t x y : noFail (bigSub t x y).
Proof.
  unfold bigSub. apply noFail_bind; [apply noFail_bigGet |]. intros a.
  apply noFail_bind; [apply noFail_bigGet |]. intros b. apply noFail_bigSet.
Qed.

Lemma noFail_bigAdd t x y : noFail (bigAdd t x y).
Proof.
  unfold bigAdd. apply noFail_bind; [apply noFail_bigGet |]. intros a.
  apply noFail_bind; [apply noFail_bigGet |]. intros b. apply noFail_bigSet.
Qed.

Ltac no_fail :=
  repeat first
    [ apply noFail_ret | apply noFail_panic | apply noFail_bigGet
    | apply noFail_bigSet | apply noFail_bigNew | apply noFail_receiver
    | apply noFail_bigSub | apply noFail_bigAdd
    | apply noFail_bind; [| intros ?]
    | apply noFail_forEach; intros ? ? ].

Lemma noFail_copy s : noFail (copy s).
Proof. unfold copy. no_fail. Qed.

Lemma noFail_dealNewVote number snap vote : noFail (dealNewVote number snap vote).
Proof.
  unfold dealNewVote. apply noFail_bind.
  - destruct (Votes snap !! Voter vote); no_fail.
  - intros _. apply noFail_bind; [| intros ?; no_fail].
    destruct (Tally snap !! Candidate vote); no_fail.
Qed.

Lemma noFail_dealModifiedVote snap txVote : noFail (dealModifiedVote snap txVote).
Proof. unfold dealModifiedVote. destruct (Votes snap !! Voter txVote); no_fail. Qed.

Lemma noFail_clearVote snap vote : noFail (clearVote snap vote).
Proof. unfold clearVote. no_fail. Qed.

Lemma noFail_expireVotes cfg order : forall snap, noFail (expireVotes cfg order snap).
Proof.
  induction order as [| voter rest IH]; intros snap; simpl; [apply noFail_ret |].
  destruct (Voters snap !! voter) as [voteNumber |]; [| apply IH].
  destruct (atThreshold cfg snap); [apply noFail_ret |].
  destruct (expired cfg snap voteNumber); [| apply IH].
  destruct (Votes snap !! voter); [| apply IH].
  apply noFail_bind; [apply noFail_clearVote | intros ?; apply IH].
Qed.

Lemma noFail_sweepTally snap : noFail (sweepTally snap).
Proof.
  unfold sweepTally. apply noFail_forEach. intros acc kv.
  apply noFail_bind; [apply noFail_bigGet |]. intros v. destruct (v <=? 0); apply noFail_ret.
Qed.

Lemma noFail_allocExtra d : noFail (allocExtra d).
Proof. unfold allocExtra, allocVotes, allocVote. no_fail. Qed.

Lemma noFail_extraPayload `{Externals} header : noFail (extraPayload header).
Proof. unfold extraPayload. destruct (_ <? _)%nat; no_fail. Qed.

Lemma bind_fail_inv {A B} (m : Go A) (k : A -> Go B) h e h' :
  bind m k h = (Fail e, h') ->
  m h = (Fail e, h') \/ exists a h1, m h = (Done a, h1) /\ k a h1 = (Fail e, h').
Proof.
  unfold bind. destruct (m h) as [[a | e0 |] h1]; [eauto | | discriminate].
  intros Hrun. injection Hrun as <- <-. auto.
Qed.

Lemma applyHeader_fail `{Externals} snap header h e h' :
  applyHeader snap header h = (Fail e, h') -> ecrecover header = inr e.
Proof.
  unfold applyHeader. destruct (ecrecover header) as [a | err].
  - intros Hrun. exfalso. revert Hrun.
    apply noFail_bind; [apply noFail_extraPayload |]. intros payload.
    apply noFail_bind; [apply noFail_allocExtra |]. intros hx. cbv zeta.
    apply noFail_bind; [apply noFail_forEach; intros; apply noFail_dealNewVote |].
    intros s1.
    apply noFail_bind; [apply noFail_forEach; intros; apply noFail_dealModifiedVote |].
    intros s2. apply noFail_bind; [| intros ?; apply noFail_ret].
    destruct (_ =? 0); [apply noFail_panic |]. destruct (_ =? 0); apply noFail_ret.
  - intros Hrun. injection Hrun as <- _. reflexivity.
Qed.

Lemma forEach_fail {A S} (body : S -> A -> Go S) (xs : list A) :
  forall acc h e h',
    forEach body xs acc h = (Fail e, h') ->
    exists x a ha ha', x ∈ xs /\ body a x ha = (Fail e, ha').
Proof.
  induction xs as [| x rest IH]; intros acc h e h' Hrun; [discriminate |].
  simpl in Hrun. apply bind_fail_inv in Hrun as [Hbody | (a1 & h1 & _ & Hrest)].
  - exists x, acc, h, h'. split; [apply list_elem_of_here | exact Hbody].
  - destruct (IH _ _ _ _ Hrest) as (y & a & ha & ha' & Hin & Hy).
    exists y, a, ha, ha'. split; [apply list_elem_of_further; exact Hin | exact Hy].
Qed.

(** X11.  An error returned by [apply] is either [errInvalidVotingChain],
    returned before anything is written, for a gap in the numbers of the
    headers or a first header that does not follow the snapshot, or the
    error that [ecrecover] gave for one of the headers.  No other error
    is ever returned. *)
Theorem apply_errors `{Externals} order s headers h e h' :
  apply order s headers h = (Fail e, h') ->
  (e = errInvalidVotingChain /\ h' = h
   /\ exists first, headers !! 0%nat = Some first
        /\ ((exists i, gapAt headers i)
            \/ Uint64 (Header.Number first) <> wrap64 (Number s + 1)))
  \/ exists header, header ∈ headers /\ ecrecover header = inr e.
Proof.
  unfold apply. destruct headers as [| first rest]; [discriminate |].
  destruct (consecutive (first :: rest)) eqn:Hcons; simpl negb; cbv iota.
  2:{ intros Hrun. injection Hrun as <- <-. left. split; [reflexivity |].
      split; [reflexivity |]. exists first. split; [reflexivity |]. left.
      apply consecutive_false. exact Hcons. }
  destruct (Z.eqb_spec (Uint64 (Header.Number first)) (wrap64 (Number s + 1)))
    as [Hfirst | Hfirst]; simpl negb; cbv iota.
  2:{ intros Hrun. injection Hrun as <- <-. left. split; [reflexivity |].
      split; [reflexivity |]. exists first. split; [reflexivity |]. right. exact Hfirst. }
  intros Hrun. right.
  apply bind_fail_inv in Hrun as [Hcopy | (c & h1 & _ & Hrun)].
  { exfalso. exact (noFail_copy _ _ _ _ Hcopy). }
  apply bind_fail_inv in Hrun as [Hloop | (a & h2 & _ & Hrun)].
  { apply forEach_fail in Hloop as (x & acc & ha & ha' & Hin & Hx).
    exists x. split; [exact Hin |]. eapply applyHeader_fail. exact Hx. }
  exfalso. revert Hrun. cbv zeta.
  apply noFail_bind; [apply noFail_expireVotes | intros ?; apply noFail_sweepTally].
Qed.

(** ** What a returned snapshot tells *)

Lemma Uint64_wrapped z : wrap64 (Uint64 z) = Uint64 z.
Proof. unfold wrap64, Uint64. apply Z.mod_mod. rewrite two64_eq. lia. Qed.

Lemma consecutive_numbering (headers : list Header.t) :
  forall first,
    headers !! 0%nat = Some first ->
    consecutive headers = true ->
    forall i x, headers !! i = Some x ->
      Uint64 (Header.Number x) = wrap64 (Uint64 (Header.Number first) + Z.of_nat i).
Proof.
  induction headers as [| a rest IH]; intros first Hfirst Hcons i x Hx; [discriminate |].
  simpl in Hfirst. injection Hfirst as ->.
  destruct i as [| i].
  - simpl in Hx. injection Hx as ->. rewrite Z.add_0_r. symmetry. apply Uint64_wrapped.
  - simpl in Hx. destruct rest as [| b rest']; [discriminate |].
    change (consecutive (first :: b :: rest'))
      with (if Uint64 (Header.Number b) =? wrap64 (Uint64 (Header.Number first) + 1)
            then consecutive (b :: rest') else false) in Hcons.
    destruct (Z.eqb_spec (Uint64 (Header.Number b))
                         (wrap64 (Uint64 (Header.Number first) + 1))) as [Hb |];
      [| discriminate].
    rewrite (IH b (eq_refl : (b :: rest') !! 0%nat = Some b) Hcons i x Hx). rewrite Hb. rewrite wrap64_add_l.
    f_equal. lia.
Qed.

Lemma apply_inv `{Externals} order s first rest h snap' h' :
  apply order s (first :: rest) h = (Done snap', h') ->
  consecutive (first :: rest) = true
  /\ Uint64 (Header.Number first) = wrap64 (Number s + 1)
  /\ exists c h1 a h2 e h3,
       copy s h = (Done c, h1)
       /\ forEach applyHeader (first :: rest) c h1 = (Done a, h2)
       /\ expireVotes (config s) order
            (setHash (headerHash (List.last (first :: rest) first))
               (setNumber (wrap64 (Number a + len (first :: rest))) a)) h2
          = (Done e, h3)
       /\ sweepTally e h3 = (Done snap', h').
Proof.
  unfold apply.
  destruct (consecutive (first :: rest)); simpl negb; cbv iota; [| discriminate].
  destruct (Z.eqb_spec (Uint64 (Header.Number first)) (wrap64 (Number s + 1)));
    simpl negb; cbv iota; [| discriminate].
  intros Hrun. split; [reflexivity |]. split; [assumption |].
  apply bind_inv in Hrun as (c & h1 & Hcopy & Hrun).
  apply bind_inv in Hrun as (a & h2 & Hloop & Hrun).
  cbv zeta in Hrun.
  apply bind_inv in Hrun as (e0 & h3 & Hexp & Hsweep).
  eauto 12.
Qed.

Lemma applyHeaders_head `{Externals} (headers : list Header.t) c h a h' :
  forEach applyHeader headers c h = (Done a, h') ->
  config a = config c /\ Number a = Number c /\ Hash a = Hash c
  /\ (keyed c -> keyed a).
Proof.
  apply (forEach_invariant
           (fun acc _ => config acc = config c /\ Number acc = Number c
                         /\ Hash acc = Hash c /\ (keyed c -> keyed acc))).
  - intros acc x hx acc' hx' _ (Hc & Hn & Hh & Hk) Hbody.
    destruct (applyHeader_inv _ _ _ _ _ Hbody)
      as (_ & _ & _ & Hc' & Hn' & Hh' & _ & _ & _ & _ & Hk').
    repeat split; try congruence. auto.
  - auto.
Qed.

(** X12.  When [apply] returns a snapshot for a non-empty list of
    headers, the epoch of the configuration is not zero, the header at
    index [i] carries the number of the snapshot plus [1 + i] (in
    [uint64]), and for every header [ecrecover] succeeded and the extra
    data is as long as vanity and seal together. *)
Theorem apply_done_requires `{Externals} order s headers h snap' h' :
  headers <> [] ->
  apply order s headers h = (Done snap', h') ->
  Epoch (config s) <> 0
  /\ (forall i header, headers !! i = Some header ->
        Uint64 (Header.Number header) = wrap64 (Number s + 1 + Z.of_nat i))
  /\ (forall header, header ∈ headers ->
        (exists a, ecrecover header = inl a)
        /\ (extraVanity + extraSeal <= length (Header.Extra header))%nat).
Proof.
  intros Hne Hrun. destruct headers as [| first rest]; [contradiction |].
  apply apply_inv in Hrun
    as (Hcons & Hfirst & c & h1 & a & h2 & e & h3 & Hcopy & Hloop & _ & _).
  destruct (copy_fields _ _ _ _ Hcopy) as (Hf & _).
  unfold frameOf in Hf. injection Hf as Hcfg _ _ _ _ _ _.
  split; [| split].
  - simpl in Hloop. apply bind_inv in Hloop as (a1 & hx & Hbody & _).
    destruct (applyHeader_inv _ _ _ _ _ Hbody) as (_ & _ & Hepoch & _).
    congruence.
  - intros i header Hi.
    rewrite (consecutive_numbering (first :: rest) first eq_refl Hcons i header Hi).
    rewrite Hfirst, wrap64_add_l. reflexivity.
  - intros header Hin.
    destruct (forEach_each_done _ _ _ _ _ _ Hloop header Hin) as (x & hx & x' & hx' & Hbody).
    destruct (applyHeader_inv _ _ _ _ _ Hbody) as (Hrec & Hlen & _). auto.
Qed.

(** X13.  The snapshot that [apply] returns has the configuration of
    the source, its number advanced by the number of headers (in
    [uint64]), and the hash, the time, the loop start time and the
    signer queue of the last header. *)
Theorem apply_header_fields `{Externals} order s earlier lastHeader h snap' h' :
  apply order s (earlier ++ [lastHeader]) h = (Done snap', h') ->
  let d := (rlpDecodeBytes (payloadBytes lastHeader)).1 in
  config snap' = config s
  /\ Number snap' = wrap64 (Number s + len earlier + 1)
  /\ Hash snap' = headerHash lastHeader
  /\ HeaderTime snap' = Uint64 (Header.Time lastHeader)
  /\ LoopStartTime snap' = Payload.LoopStartTime d
  /\ Signers snap' = Payload.SignerQueue d.
Proof.
  intros Hrun.
  destruct (earlier ++ [lastHeader]) as [| first rest] eqn:Hheaders.
  { destruct earlier; discriminate. }
  apply apply_inv in Hrun
    as (_ & _ & c & h1 & a & h2 & e & h3 & Hcopy & Hloop & Hexp & Hsweep).
  rewrite <- Hheaders in *.
  destruct (copy_fields _ _ _ _ Hcopy) as (Hf & _).
  unfold frameOf in Hf. injection Hf as Hcfg Hnum _ _ _ _ _.
  destruct (applyHeaders_head _ _ _ _ _ Hloop) as (Hc1 & Hn1 & _).
  apply forEach_snoc_inv in Hloop as (mid & hm & _ & Hlast).
  destruct (applyHeader_inv _ _ _ _ _ Hlast)
    as (_ & _ & _ & _ & _ & _ & Htime & Hlst & Hsig & _).
  destruct (expireVotes_below _ _ _ _ _ _ Hexp) as (_ & _ & _ & Hfe & _).
  destruct (sweepTally_inv _ _ _ _ Hsweep) as (_ & _ & _ & Hfs & _).
  unfold frameOf in Hfe, Hfs. simpl in Hfe.
  injection Hfe as Hec Hen Heh Hes Hep Het Hel.
  injection Hfs as Hsc Hsn Hsh Hss Hsp Hst Hsl.
  cbv zeta. rewrite List.last_last in Heh.
  assert (len (earlier ++ [lastHeader]) = len earlier + 1) as Hlen
    by (unfold len; rewrite length_app; simpl; lia).
  repeat split; try congruence.
  rewrite Hsn, Hen, Hn1, Hnum, Hlen. f_equal. lia.
Qed.

(** X14.  Every tally entry of a snapshot returned by [apply] on a
    non-empty list of headers holds a value greater than zero. *)
Theorem apply_tally_positive `{Externals} order s headers h snap' h' :
  headers <> [] ->
  apply order s headers h = (Done snap', h') ->
  forall candidate p, Tally snap' !! candidate = Some p ->
    exists v, h' !! p = Some v /\ 0 < v.
Proof.
  intros Hne Hrun candidate p Hp. destruct headers as [| first rest]; [contradiction |].
  apply apply_inv in Hrun as (_ & _ & c & h1 & a & h2 & e & h3 & _ & _ & _ & Hsweep).
  destruct (sweepTally_inv _ _ _ _ Hsweep) as (-> & _ & _ & _ & Htally).
  apply Htally in Hp as [_ Hpos]. exact Hpos.
Qed.

(** X15.  If every vote of the source is stored under its own voter, the
    same holds of the snapshot that [apply] returns. *)
Theorem apply_keeps_keyed `{Externals} order s headers h snap' h' :
  keyed s ->
  apply order s headers h = (Done snap', h') ->
  keyed snap'.
Proof.
  intros Hkey Hrun. destruct headers as [| first rest].
  { injection Hrun as <- <-. exact Hkey. }
  apply apply_inv in Hrun
    as (_ & _ & c & h1 & a & h2 & e & h3 & Hcopy & Hloop & Hexp & Hsweep).
  assert (keyed c) as Hc.
  { intros k v' Hk. destruct (copy_votes_from _ _ _ _ Hcopy k v' Hk) as (v & Hv & Hvoter & _).
    rewrite Hvoter. exact (Hkey k v Hv). }
  destruct (applyHeaders_head _ _ _ _ _ Hloop) as (_ & _ & _ & Ha).
  destruct (expireVotes_below _ _ _ _ _ _ Hexp) as (_ & Hsub & _).
  destruct (sweepTally_inv _ _ _ _ Hsweep) as (_ & Hvotes & _).
  intros k v Hk. rewrite Hvotes in Hk.
  apply (lookup_weaken _ _ _ _ Hk) in Hsub. simpl in Hsub.
  exact (Ha Hc k v Hsub).
Qed.

(** ** The punishments across a run *)

Lemma applyHeaders_punished `{Externals} (headers : list Header.t) :
  forall c h a h',
    forEach applyHeader headers c h = (Done a, h') ->
    Punished a = foldl (punishedStep (config c)) (Punished c) headers.
Proof.
  induction headers as [| x rest IH]; intros c h a h' Hrun.
  - injection Hrun as <- <-. reflexivity.
  - simpl in Hrun. apply bind_inv in Hrun as (c1 & h1 & Hbody & Hrest).
    destruct (applyHeader_inv _ _ _ _ _ Hbody)
      as (_ & _ & _ & Hcfg & _ & _ & _ & _ & _ & Hpun & _).
    rewrite (IH _ _ _ _ Hrest). simpl. rewrite Hcfg. f_equal. exact Hpun.
Qed.

(** X16.  The punishments of the snapshot that [apply] returns are those
    of the source taken through the headers one by one: halved on an
    epoch block, raised for each missed turn, lowered for the producer.
    Votes and tallies have no influence on them. *)
Theorem apply_punished `{Externals} order s headers h snap' h' :
  apply order s headers h = (Done snap', h') ->
  Punished snap' = foldl (punishedStep (config s)) (Punished s) headers.
Proof.
  intros Hrun. destruct headers as [| first rest].
  { injection Hrun as <- <-. reflexivity. }
  apply apply_inv in Hrun
    as (_ & _ & c & h1 & a & h2 & e & h3 & Hcopy & Hloop & Hexp & Hsweep).
  destruct (copy_fields _ _ _ _ Hcopy) as (Hf & _).
  unfold frameOf in Hf. injection Hf as Hcfg _ _ _ Hpun _ _.
  apply applyHeaders_punished in Hloop.
  destruct (expireVotes_below _ _ _ _ _ _ Hexp) as (_ & _ & _ & Hfe & _).
  destruct (sweepTally_inv _ _ _ _ Hsweep) as (_ & _ & _ & Hfs & _).
  unfold frameOf in Hfe, Hfs. simpl in Hfe.
  injection Hfe as _ _ _ _ Hep _ _. injection Hfs as _ _ _ _ Hsp _ _.
  rewrite Hsp, Hep, Hloop, Hcfg, Hpun. reflexivity.
Qed.

(** ** Only expired votes are removed *)

Lemma expired_cleared cfg snap vote remaining n :
  expired cfg (cleared snap vote remaining) n = expired cfg snap n.
Proof. reflexivity. Qed.



(** ** The genesis snapshot *)

Lemma forEach_snoc {A S} (body : S -> A -> Go S) (xs : list A) (x : A) acc h :
  forEach body (xs ++ [x]) acc h
  = (mid <- forEach body xs acc ;; body mid x) h.
Proof.
  revert acc h. induction xs as [| y ys IH]; intros acc h.
  - simpl. unfold bind, ret. destruct (body acc x h) as [[a | e |] h1]; reflexivity.
  - simpl. unfold bind.
    destruct (body acc y h) as [[a | e |] h1]; [| reflexivity | reflexivity].
    rewrite IH. reflexivity.
Qed.

Lemma genesis_signers (signers : list Address) (n : nat) (h : Heap) :
  signers <> [] ->
  exists l,
    forEach (fun acc i =>
               match signers with
               | [] => panic
               | _ :: _ =>
                   match signers !! (i mod length signers)%nat with
                   | Some a => ret (acc ++ [a])
                   | None => panic
                   end
               end) (seq 0 n) [] h = (Done l, h)
    /\ length l = n
    /\ forall i, (i < n)%nat -> l !! i = signers !! (i mod length signers)%nat.
Proof.
  intros Hne. induction n as [| n (l & Hrun & Hlen & Hl)].
  - exists []. split; [reflexivity |]. split; [reflexivity |]. intros i Hi. lia.
  - assert (0 < length signers)%nat as Hpos by (destruct signers; [congruence | simpl; lia]).
    destruct (signers !! (n mod length signers)%nat) as [a |] eqn:Ha.
    2:{ apply lookup_ge_None in Ha.
        pose proof (Nat.mod_upper_bound n (length signers)). lia. }
    exists (l ++ [a]). rewrite seq_S. simpl. rewrite forEach_snoc.
    rewrite (bind_done _ _ l h h) by exact Hrun.
    destruct signers as [| s0 rest]; [congruence |].
    rewrite Ha. split; [reflexivity |]. split; [rewrite length_app; simpl; lia |].
    intros i Hi. destruct (decide (i = n)) as [-> | Hin].
    + rewrite lookup_app_r by lia. rewrite Hlen, Nat.sub_diag. simpl. symmetry. exact Ha.
    + rewrite lookup_app_l by lia. apply Hl. lia.
Qed.

Lemma stakeSumOf_snoc h c votes vote :
  stakeSumOf h c (votes ++ [vote])
  = stakeSumOf h c votes
    + (if N.eqb (Candidate vote) c then cellValue h (Stake vote) else 0).
Proof.
  unfold stakeSumOf. induction votes as [| v rest IH]; simpl.
  - destruct (N.eqb (Candidate vote) c); lia.
  - rewrite IH. destruct (N.eqb (Candidate v) c); lia.
Qed.


Lemma stakeSumOf_absent h c votes :
  c ∉ Candidate <$> votes -> stakeSumOf h c votes = 0.
Proof.
  unfold stakeSumOf. induction votes as [| v rest IH]; intros Hout; [reflexivity |].
  simpl in *. apply not_elem_of_cons in Hout as [Hne Hout].
  destruct (N.eqb_spec (Candidate v) c); [congruence | auto].
Qed.

Lemma genesisTally_snoc_eq h seen vote :
  genesisTally h (Candidate vote) (seen ++ [vote])
  = Some (stakeSumOf h (Candidate vote) seen + cellValue h (Stake vote)).
Proof.
  unfold genesisTally. rewrite decide_True.
  - rewrite stakeSumOf_snoc, N.eqb_refl. reflexivity.
  - rewrite fmap_app. apply elem_of_app. right. apply list_elem_of_here.
Qed.

Lemma genesisTally_snoc_ne h c seen vote :
  c <> Candidate vote ->
  genesisTally h c (seen ++ [vote]) = genesisTally h c seen.
Proof.
  intros Hne. unfold genesisTally. rewrite stakeSumOf_snoc.
  destruct (N.eqb_spec (Candidate vote) c); [congruence |]. rewrite Z.add_0_r.
  destruct (decide (c ∈ Candidate <$> seen)) as [Hin | Hout].
  - rewrite decide_True; [reflexivity |]. rewrite fmap_app. apply elem_of_app. auto.
  - rewrite decide_False; [reflexivity |]. rewrite fmap_app. intros Hin.
    apply elem_of_app in Hin as [Hin | Hin]; [contradiction |].
    apply list_elem_of_singleton in Hin. contradiction.
Qed.

Lemma genesis_step h0 seen snap h vote :
  genesisInv h0 seen snap h ->
  (Stake vote < length h0)%nat ->
  exists snap' h',
    genesisVote snap vote h = (Done snap', h')
    /\ genesisInv h0 (seen ++ [vote]) snap' h'
    /\ frameOf snap' = frameOf snap.
Proof.
  intros (Hlen & Hold & Hfresh & Hinj & Htally & Hvotes & Hvoters) Hq.
  destruct (lookup_lt_is_Some_2 h0 (Stake vote) Hq) as [b Hb].
  assert (h !! Stake vote = Some b) as Hhb by (rewrite Hold by exact Hq; exact Hb).
  assert (cellValue h0 (Stake vote) = b) as Hcell by (unfold cellValue; rewrite Hb; reflexivity).
  assert (forall a,
            <[Voter vote := vote]> (Votes snap) !! a = lastVoteOf a (seen ++ [vote])) as Hvotes'.
  { intros a. rewrite filter_snoc_voter. destruct (decide (Voter vote = a)) as [<- | Hne].
    - apply lookup_insert_eq.
    - rewrite lookup_insert_ne by exact Hne. apply Hvotes. }
  assert (forall a,
            <[Voter vote := 0]> (Voters snap) !! a
            = (lastVoteOf a (seen ++ [vote]) ≫= fun _ => Some 0)) as Hvoters'.
  { intros a. rewrite filter_snoc_voter. destruct (decide (Voter vote = a)) as [<- | Hne].
    - apply lookup_insert_eq.
    - rewrite lookup_insert_ne by exact Hne. apply Hvoters. }
  unfold genesisVote. cbv zeta. simpl Tally.
  destruct (Tally snap !! Candidate vote) as [t |] eqn:Ht.
  - destruct (Hfresh _ _ Ht) as [Htlo Hthi].
    destruct (lookup_lt_is_Some_2 h t Hthi) as [a Ha].
    pose proof (Htally (Candidate vote)) as Hsum.
    unfold tallyValue in Hsum. rewrite Ht, Ha in Hsum.
    unfold genesisTally in Hsum.
    destruct (decide (Candidate vote ∈ Candidate <$> seen)); [| discriminate].
    injection Hsum as Hsum.
    eexists _, (<[t := a + b]> h). split; [| split].
    + unfold bind, ret, receiver, bigAdd, bind, bigGet, bigSet. simpl.
      rewrite Ht. simpl. rewrite Ha. simpl. rewrite Hhb. simpl. rewrite Ha. reflexivity.
    + unfold genesisInv. simpl. rewrite length_insert.
      split; [exact Hlen |]. split; [| split; [exact Hfresh |]].
      { intros p Hp. rewrite list_lookup_insert_ne by lia. apply Hold. exact Hp. }
      split; [exact Hinj |]. split; [| split; [exact Hvotes' | exact Hvoters']].
      intros c. unfold tallyValue. simpl.
      destruct (decide (c = Candidate vote)) as [-> | Hne].
      * rewrite Ht, genesisTally_snoc_eq, Hcell, <- Hsum.
        apply list_lookup_insert_eq. exact Hthi.
      * rewrite genesisTally_snoc_ne by exact Hne. rewrite <- Htally. unfold tallyValue.
        destruct (Tally snap !! c) as [t' |] eqn:Ht'; [| reflexivity].
        apply list_lookup_insert_ne. intros <-. apply Hne. exact (Hinj _ _ _ Ht' Ht).
    + reflexivity.
  - pose proof (Htally (Candidate vote)) as Hsum.
    unfold tallyValue in Hsum. rewrite Ht in Hsum. unfold genesisTally in Hsum.
    destruct (decide (Candidate vote ∈ Candidate <$> seen)) as [| Hout]; [discriminate |].
    apply (stakeSumOf_absent h0) in Hout.
    eexists _, (<[length h := 0 + b]> (h ++ [0])). split; [| split].
    + assert ((h ++ [0]) !! length h = Some 0) as Hnew
        by (rewrite lookup_app_r by lia; rewrite Nat.sub_diag; reflexivity).
      pose proof (lookup_app_l_Some _ [0] _ _ Hhb) as Hhb'.
      unfold bind, ret, receiver, bigNew, bigAdd, bind, bigGet, bigSet. simpl.
      rewrite lookup_insert_eq. simpl. rewrite Hnew. simpl. rewrite Hhb'. simpl.
      rewrite Hnew. reflexivity.
    + unfold genesisInv. simpl. rewrite length_insert, length_app. simpl.
      split; [lia |]. split; [| split; [| split; [| split; [| split]]]].
      * intros p Hp. rewrite list_lookup_insert_ne by lia.
        rewrite lookup_app_l by lia. apply Hold. exact Hp.
      * intros c t Hc. apply lookup_insert_Some in Hc as [[_ <-] | [_ Hc]]; [lia |].
        apply Hfresh in Hc. lia.
      * intros c c' t Hc Hc'.
        apply lookup_insert_Some in Hc as [[<- <-] | [Hne Hc]];
          apply lookup_insert_Some in Hc' as [[<- Heq] | [Hne' Hc']]; try reflexivity.
        -- apply Hfresh in Hc'. lia.
        -- apply Hfresh in Hc. lia.
        -- exact (Hinj _ _ _ Hc Hc').
      * intros c. unfold tallyValue. simpl.
        destruct (decide (c = Candidate vote)) as [-> | Hne].
        -- rewrite lookup_insert_eq, genesisTally_snoc_eq, Hcell, Hout.
           apply list_lookup_insert_eq. rewrite length_app. simpl. lia.
        -- rewrite lookup_insert_ne by congruence.
           rewrite genesisTally_snoc_ne by exact Hne. rewrite <- Htally. unfold tallyValue.
           destruct (Tally snap !! c) as [t' |] eqn:Ht'; [| reflexivity].
           apply Hfresh in Ht'.
           rewrite list_lookup_insert_ne by lia. apply lookup_app_l. lia.
      * exact Hvotes'.
      * exact Hvoters'.
    + reflexivity.
Qed.

Lemma genesis_votes (h0 : Heap) (votes : list Vote) (init : Snapshot) :
  Votes init = ∅ -> Tally init = ∅ -> Voters init = ∅ ->
  (forall v, v ∈ votes -> (Stake v < length h0)%nat) ->
  exists snap h,
    forEach genesisVote votes init h0 = (Done snap, h)
    /\ genesisInv h0 votes snap h
    /\ frameOf snap = frameOf init.
Proof.
  intros Hvo Hta Hvr. induction votes as [| vote seen IH] using rev_ind; intros Hvalid.
  - exists init, h0. split; [reflexivity |]. split; [| reflexivity].
    unfold genesisInv. rewrite Hvo, Hta, Hvr.
    split; [lia |]. split; [reflexivity |].
    split; [intros c t Hc; rewrite lookup_empty in Hc; discriminate |].
    split; [intros c c' t Hc; rewrite lookup_empty in Hc; discriminate |].
    split; [| split]; intros x.
    + unfold tallyValue. rewrite Hta, lookup_empty. reflexivity.
    + rewrite lookup_empty. reflexivity.
    + rewrite lookup_empty. reflexivity.
  - destruct IH as (mid & hm & Hrun & Hinv & Hf).
    { intros v Hv. apply Hvalid. apply elem_of_app. auto. }
    destruct (genesis_step h0 seen mid hm vote Hinv) as (snap & h & Hstep & Hinv' & Hf').
    { apply Hvalid. apply elem_of_app. right. apply list_elem_of_here. }
    exists snap, h. split; [| split; [exact Hinv' | congruence]].
    rewrite forEach_snoc. rewrite (bind_done _ _ mid h0 hm) by exact Hrun. exact Hstep.
Qed.

Lemma lastVoteOf_voter (a : Address) (votes : list Vote) (v : Vote) :
  lastVoteOf a votes = Some v -> Voter v = a /\ v ∈ votes.
Proof.
  unfold lastVoteOf. intros Hlast.
  assert (v ∈ filter (fun v => Voter v = a) votes) as Hin.
  { apply last_Some in Hlast as [l' ->]. apply elem_of_app. right. apply list_elem_of_here. }
  apply list_elem_of_filter in Hin. exact Hin.
Qed.

Lemma newSnapshot_run now cfg hash votes h :
  (forall v, v ∈ votes -> (Stake v < length h)%nat) ->
  SelfVoteSigners cfg <> [] ->
  exists snap0 h' signers,
    newSnapshot now cfg hash votes h = (Done (setSigners signers snap0), h')
    /\ genesisInv h votes snap0 h'
    /\ frameOf snap0
       = (cfg, 0, hash, [], ∅, wrap64 (wrap64 now - 1), GenesisTimestamp cfg)
    /\ length signers = Z.to_nat (toInt64 (MaxSignerCount cfg))
    /\ forall i, (i < Z.to_nat (toInt64 (MaxSignerCount cfg)))%nat ->
         signers !! i = SelfVoteSigners cfg !! (i mod length (SelfVoteSigners cfg))%nat.
Proof.
  intros Hvalid Hne.
  destruct (genesis_votes h votes
              (mkSnapshot cfg 0 hash [] ∅ ∅ ∅ ∅ (wrap64 (wrap64 now - 1))
                          (GenesisTimestamp cfg)))
    as (snap0 & h' & Hrun & Hinv & Hf); try reflexivity; [exact Hvalid |].
  destruct (genesis_signers (SelfVoteSigners cfg)
              (Z.to_nat (toInt64 (MaxSignerCount cfg))) h' Hne)
    as (signers & Hsig & Hlen & Hrot).
  exists snap0, h', signers. split; [| auto].
  change (newSnapshot now cfg hash votes h)
    with ((snap <- forEach genesisVote votes
                     (mkSnapshot cfg 0 hash [] ∅ ∅ ∅ ∅ (wrap64 (wrap64 now - 1))
                                 (GenesisTimestamp cfg)) ;;
           signers <- forEach (fun acc i =>
                                 match SelfVoteSigners cfg with
                                 | [] => panic
                                 | _ :: _ =>
                                     match SelfVoteSigners cfg
                                             !! (i mod length (SelfVoteSigners cfg))%nat with
                                     | Some a => ret (acc ++ [a])
                                     | None => panic
                                     end
                                 end)
                              (seq 0 (Z.to_nat (toInt64 (MaxSignerCount cfg)))) [] ;;
           ret (setSigners signers snap)) h).
  rewrite (bind_done _ _ snap0 h h') by exact Hrun.
  rewrite (bind_done _ _ signers h' h') by exact Hsig.
  reflexivity.
Qed.

(** X18.  [newSnapshot] returns for every list of votes whose stakes
    have a cell.  The tally of each candidate is the sum of the stakes
    of the genesis votes that name it, in a new cell that no other
    candidate shares, and no cell of the given store is written to.
    Each voter holds its last vote of the list, the voters are exactly
    the addresses that voted, and every vote is stored under its own
    voter. *)
Theorem newSnapshot_ledger now cfg hash votes h :
  (forall v, v ∈ votes -> (Stake v < length h)%nat) ->
  SelfVoteSigners cfg <> [] ->
  exists snap h',
    newSnapshot now cfg hash votes h = (Done snap, h')
    /\ (forall c, tallyValue h' snap c = genesisTally h c votes)
    /\ (forall p, (p < length h)%nat -> h' !! p = h !! p)
    /\ (forall c t, Tally snap !! c = Some t -> (length h <= t)%nat)
    /\ (forall c c' t, Tally snap !! c = Some t -> Tally snap !! c' = Some t -> c = c')
    /\ (forall a, Votes snap !! a = lastVoteOf a votes)
    /\ (forall a, isVoter snap a = bool_decide (is_Some (lastVoteOf a votes)))
    /\ keyed snap.
Proof.
  intros Hvalid Hne.
  destruct (newSnapshot_run now cfg hash votes h Hvalid Hne)
    as (snap0 & h' & signers & Hrun & Hinv & _).
  destruct Hinv as (_ & Hold & Hfresh & Hinj & Htally & Hvotes & Hvoters).
  exists (setSigners signers snap0), h'. split; [exact Hrun |].
  split; [exact Htally |]. split; [exact Hold |].
  split; [intros c t Hc; apply (Hfresh c t Hc) |].
  split; [exact Hinj |]. split; [exact Hvotes |]. split.
  - intros a. unfold isVoter. simpl. rewrite Hvoters.
    destruct (lastVoteOf a votes) as [v |]; reflexivity.
  - intros k v Hk. simpl in Hk. rewrite Hvotes in Hk.
    apply lastVoteOf_voter in Hk as [Hk _]. exact Hk.
Qed.

(** X19.  The genesis snapshot has [MaxSignerCount] signers, the
    self-vote signers of the configuration repeated in rotation; its
    number is zero, it punishes nobody, its loop starts at the genesis
    timestamp, and its header time is the second before the clock's. *)
Theorem newSnapshot_signers now cfg hash votes h :
  (forall v, v ∈ votes -> (Stake v < length h)%nat) ->
  SelfVoteSigners cfg <> [] ->
  0 <= MaxSignerCount cfg < two63 ->
  exists snap h',
    newSnapshot now cfg hash votes h = (Done snap, h')
    /\ len (Signers snap) = MaxSignerCount cfg
    /\ (forall i, (Z.of_nat i < MaxSignerCount cfg) ->
          Signers snap !! i
          = SelfVoteSigners cfg !! (i mod length (SelfVoteSigners cfg))%nat)
    /\ config snap = cfg /\ Number snap = 0 /\ Hash snap = hash
    /\ Punished snap = ∅
    /\ HeaderTime snap = wrap64 (wrap64 now - 1)
    /\ LoopStartTime snap = GenesisTimestamp cfg.
Proof.
  intros Hvalid Hne Hmax.
  destruct (newSnapshot_run now cfg hash votes h Hvalid Hne)
    as (snap0 & h' & signers & Hrun & _ & Hf & Hlen & Hrot).
  rewrite toInt64_small in Hlen, Hrot by lia.
  unfold frameOf in Hf. injection Hf as Hc Hn Hh _ Hp Ht Hl.
  exists (setSigners signers snap0), h'. split; [exact Hrun |]. simpl.
  split; [unfold len; lia |]. split; [intros i Hi; apply Hrot; lia |].
  repeat split; assumption.
Qed.

(** ** The signer queue takes the top *)

Lemma addr_itemOf h s a : addr (itemOf h s a) = a.
Proof. unfold itemOf, tallyItemOf. destruct (Punished s !! a); reflexivity. Qed.

Lemma addr_items h s (l : list Address) : addr <$> (itemOf h s <$> l) = l.
Proof.
  induction l as [| a rest IH]; [reflexivity |].
  rewrite !fmap_cons, addr_itemOf, IH. reflexivity.
Qed.

Lemma weighTally_over (order : list Address) (s : Snapshot) :
  forall acc h items h',
    forEach (fun tallySlice address =>
               match Tally s !! address with
               | Some stake =>
                   v <- bigGet stake ;;
                   ret (tallySlice ++ [tallyItemOf s address v])
               | None => ret tallySlice
               end) order acc h = (Done items, h') ->
    h' = h /\ items = acc ++ (itemOf h s <$> candidatesIn order s).
Proof.
  induction order as [| a rest IH]; intros acc h items h' Hrun.
  - injection Hrun as <- <-. rewrite app_nil_r. auto.
  - simpl in Hrun. apply bind_inv in Hrun as (acc1 & h1 & Hbody & Hrest).
    unfold candidatesIn. rewrite filter_cons.
    destruct (Tally s !! a) as [p |] eqn:Hp.
    + apply bind_inv in Hbody as (v & h2 & Hget & Hret).
      unfold bigGet in Hget. destruct (h !! p) as [v0 |] eqn:Hcell; [| discriminate].
      injection Hget as <- <-. injection Hret as <- <-.
      destruct (IH _ _ _ _ Hrest) as [-> ->]. split; [reflexivity |].
      rewrite decide_True by eauto. rewrite fmap_cons, <- app_assoc. simpl.
      do 3 f_equal. unfold itemOf, cellValue. rewrite Hp, Hcell. reflexivity.
    + injection Hbody as <- <-. destruct (IH _ _ _ _ Hrest) as [-> ->].
      split; [reflexivity |]. rewrite decide_False; [reflexivity |].
      intros [x Hx]. discriminate.
Qed.

Lemma topStakeAddress_inv sortSort order s h top h' :
  topStakeAddress sortSort order s h = (Done top, h') ->
  h' = h
  /\ 0 <= toInt64 (MaxSignerCount (config s))
  /\ top = addr <$> take (Z.to_nat (toInt64 (MaxSignerCount (config s))))
                         (sortSort (itemOf h s <$> candidatesIn order s)).
Proof.
  unfold topStakeAddress. intros Hrun.
  apply bind_inv in Hrun as (items & h1 & Hweigh & Hrun).
  unfold weighTally in Hweigh. apply weighTally_over in Hweigh as [-> ->].
  cbv zeta in Hrun. rewrite !app_nil_l in Hrun.
  set (sorted := sortSort (itemOf h s <$> candidatesIn order s)) in *.
  set (M := toInt64 (MaxSignerCount (config s))) in *.
  destruct (Z.ltb_spec (len sorted) M) as [Hlt | Hge].
  - destruct (Z.ltb_spec (len sorted) 0) as [Hneg |]; [discriminate |].
    injection Hrun as <- <-. split; [reflexivity |]. unfold len in *.
    split; [lia |]. change (map addr ?l) with (addr <$> l).
    rewrite Nat2Z.id. rewrite !firstn_all2 by lia. reflexivity.
  - destruct (Z.ltb_spec M 0) as [Hneg |]; [discriminate |].
    injection Hrun as <- <-. auto.
Qed.

(** X20.  Let [sort.Sort] keep its promise.  Then the signer queue
    is returned without a write to the store, names no address twice,
    names only candidates of the tally, has the length of
    [MaxSignerCount] or of the tally if that is shorter, and every
    candidate left out weighs at most as much as every candidate
    chosen. *)
Theorem getSignerQueue_takes_the_top sortSort order draws s h queue h' :
  sortContract sortSort ->
  NoDup order ->
  getSignerQueue sortSort order draws s h = (Done queue, h') ->
  h' = h
  /\ NoDup queue
  /\ (forall a, a ∈ queue -> a ∈ order /\ is_Some (Tally s !! a))
  /\ length queue = Nat.min (Z.to_nat (toInt64 (MaxSignerCount (config s))))
                            (length (candidatesIn order s))
  /\ (forall a b, a ∈ queue -> b ∈ candidatesIn order s -> b ∉ queue ->
        weightOf h s b <= weightOf h s a).
Proof.
  intros Hsort Hnd Hrun. unfold getSignerQueue in Hrun.
  apply bind_inv in Hrun as (top & h1 & Htop & Hret).
  injection Hret as <- <-.
  apply topStakeAddress_inv in Htop as (-> & Hmax & ->).
  set (cands := candidatesIn order s) in *.
  set (n := Z.to_nat (toInt64 (MaxSignerCount (config s)))) in *.
  destruct (Hsort (itemOf h s <$> cands)) as [Hperm Hdesc].
  set (sorted := sortSort (itemOf h s <$> cands)) in *.
  assert (addr <$> sorted ≡ₚ cands) as Haddr.
  { rewrite Hperm, addr_items. reflexivity. }
  assert (NoDup cands) as Hndc by (apply NoDup_filter; exact Hnd).
  assert (NoDup (addr <$> sorted)) as Hnds by (rewrite Haddr; exact Hndc).
  pose proof (shuffle_perm draws (addr <$> take n sorted)) as Hshuffle.
  split; [reflexivity |]. split; [| split; [| split]].
  - rewrite Hshuffle, fmap_take. eapply sublist_NoDup; [exact Hnds | apply sublist_take].
  - intros a Ha. rewrite Hshuffle, fmap_take in Ha.
    apply elem_of_take in Ha as (i & Hi & _). apply list_elem_of_lookup_2 in Hi.
    rewrite Haddr in Hi. apply list_elem_of_filter in Hi as [Hsome Hin]. auto.
  - rewrite (Permutation_length Hshuffle), length_fmap, length_take.
    rewrite (Permutation_length Hperm), length_fmap. reflexivity.
  - intros a b Ha Hb Hout. rewrite Hshuffle in Ha, Hout. rewrite fmap_take in Ha, Hout.
    apply elem_of_take in Ha as (i & Hi & Hin).
    rewrite <- Haddr in Hb. apply list_elem_of_lookup_1 in Hb as [j Hj].
    assert (n <= j)%nat as Hnj.
    { destruct (le_lt_dec n j) as [| Hlt]; [assumption |].
      exfalso. apply Hout. apply elem_of_take. eauto. }
    apply list_lookup_fmap_Some in Hi as (x & -> & Hx).
    apply list_lookup_fmap_Some in Hj as (y & -> & Hy).
    assert (forall z, z ∈ sorted -> z = itemOf h s (addr z)) as Hitem.
    { intros z Hz. rewrite Hperm in Hz. apply list_elem_of_fmap in Hz as (c & -> & _).
      rewrite addr_itemOf. reflexivity. }
    unfold weightOf.
    rewrite <- (Hitem x (list_elem_of_lookup_2 _ _ _ Hx)).
    rewrite <- (Hitem y (list_elem_of_lookup_2 _ _ _ Hy)).
    apply (Hdesc i j x y Hx Hy). lia.
Qed.

(** ** Insertion sort keeps the promise of sort.Sort *)

Lemma insertItem_perm x l : insertItem x l ≡ₚ x :: l.
Proof.
  induction l as [| y rest IH]; [reflexivity |]. simpl.
  destruct (Less x y); [| reflexivity]. rewrite IH. apply Permutation_swap.
Qed.

Lemma insertItem_ascending x l :
  StronglySorted (fun a b => stake a <= stake b) l ->
  StronglySorted (fun a b => stake a <= stake b) (insertItem x l).
Proof.
  induction 1 as [| y rest Hsorted IH Hall]; simpl.
  - repeat constructor.
  - unfold Less. destruct (Z.ltb_spec (stake y) (stake x)) as [Hlt | Hge].
    + constructor; [exact IH |]. rewrite insertItem_perm.
      constructor; [lia | exact Hall].
    + constructor; [constructor; assumption |].
      constructor; [exact Hge |].
      eapply Forall_impl; [exact Hall |]. simpl. intros z Hz. lia.
Qed.

Lemma insertAll_inv (l : list TallyItem) :
  forall acc,
    StronglySorted (fun a b => stake a <= stake b) acc ->
    StronglySorted (fun a b => stake a <= stake b)
                   (foldl (fun sorted x => insertItem x sorted) acc l)
    /\ foldl (fun sorted x => insertItem x sorted) acc l ≡ₚ acc ++ l.
Proof.
  induction l as [| x rest IH]; intros acc Hacc; simpl.
  - rewrite app_nil_r. auto.
  - destruct (IH (insertItem x acc) (insertItem_ascending x acc Hacc)) as [Hs Hp].
    split; [exact Hs |]. rewrite Hp, insertItem_perm. simpl.
    apply Permutation_middle.
Qed.

Lemma ascending_lookup (l : list TallyItem) :
  StronglySorted (fun a b => stake a <= stake b) l ->
  forall i j x y, l !! i = Some x -> l !! j = Some y -> (i <= j)%nat ->
                  stake x <= stake y.
Proof.
  induction 1 as [| z rest Hsorted IH Hall]; intros i j x y Hx Hy Hij.
  - discriminate.
  - destruct i as [| i], j as [| j]; simpl in Hx, Hy.
    + assert (x = y) as -> by congruence. lia.
    + injection Hx as <-. rewrite Forall_forall in Hall.
      apply Hall. eapply list_elem_of_lookup_2. exact Hy.
    + lia.
    + apply (IH i j); [assumption | assumption | lia].
Qed.

Lemma insertionSort_contract : sortContract insertionSort.
Proof.
  intros l. unfold insertionSort.
  destruct (insertAll_inv l [] (SSorted_nil _)) as [Hsorted Hperm].
  rewrite rev_alt. change (rev_append ?x []) with (reverse x). split.
  - rewrite reverse_Permutation. exact Hperm.
  - intros i j x y Hx Hy Hij.
    apply reverse_lookup_Some in Hx as [Hx Hi].
    apply reverse_lookup_Some in Hy as [Hy Hj].
    apply (ascending_lookup _ Hsorted _ _ _ _ Hy Hx). lia.
Qed.

(** ** A vote after the candidate's tally is gone *)

Lemma bind_panic {A B} (m : Go A) (k : A -> Go B) h h' :
  m h = (Panic, h') -> bind m k h = (Panic, h').
Proof. intros Hm. unfold bind. rewrite Hm. reflexivity. Qed.

(** X21.  A voter whose recorded vote names a candidate without a
    tally entry cannot vote again: the header that carries its new vote
    as the first one makes [apply] panic, because the subtraction from
    the candidate's tally has a nil receiver. *)
Theorem apply_panics_on_orphan_revote `{Externals} order s header h
    voter lastVote signer candidate stake0 more :
  (forall k v, Votes s !! k = Some v -> is_Some (h !! Stake v)) ->
  Votes s !! voter = Some lastVote ->
  Tally s !! Candidate lastVote = None ->
  Uint64 (Header.Number header) = wrap64 (Number s + 1) ->
  ecrecover header = inl signer ->
  (extraVanity + extraSeal <= length (Header.Extra header))%nat ->
  Payload.CurrentBlockVotes (rlpDecodeBytes (payloadBytes header)).1
  = mkVoteData voter candidate stake0 :: more ->
  exists h', apply order s [header] h = (Panic, h').
Proof.
  intros Hvalid Hvote Htally Hnum Hrec Hlen Hcur.
  destruct (copy_votes_over (map_to_list (Votes s)) ∅ h)
    as (votes & ext & Hloop & _ & _ & Hin).
  { apply NoDup_fst_map_to_list. }
  { intros k v Hkv. apply elem_of_map_to_list in Hkv. eauto. }
  destruct (Hin voter lastVote) as (v' & Hv' & _ & Hcand & _).
  { apply elem_of_map_to_list. exact Hvote. }
  set (c := mkSnapshot (config s) (Number s) (Hash s) (Signers s) votes
                       (cloneMap (Tally s)) (cloneMap (Voters s))
                       (cloneMap (Punished s)) (HeaderTime s) (LoopStartTime s)).
  assert (copy s h = (Done c, h ++ ext)) as Hcopy.
  { unfold copy, rangeEntries. rewrite (bind_done _ _ votes h (h ++ ext)) by exact Hloop.
    reflexivity. }
  destruct (allocExtra_run (rlpDecodeBytes (payloadBytes header)).1 (h ++ ext))
    as (hx & h2 & Halloc & _ & _ & _ & Hhead).
  rewrite Hcur in Hhead. destruct Hhead as [tl Hhead]. simpl in Hhead.
  exists h2. unfold apply. change (consecutive [header]) with true.
  rewrite Hnum, Z.eqb_refl. cbn [negb]. cbv iota.
  rewrite (bind_done _ _ c h (h ++ ext)) by exact Hcopy.
  apply bind_panic. simpl forEach. apply bind_panic.
  unfold applyHeader. rewrite Hrec.
  assert (extraPayload header (h ++ ext) = (Done (payloadBytes header), h ++ ext)) as Hpay.
  { unfold extraPayload, payloadBytes.
    destruct (Nat.ltb_spec (length (Header.Extra header)) (extraVanity + extraSeal));
      [lia | reflexivity]. }
  rewrite (bind_done _ _ _ _ _ Hpay).
  rewrite (bind_done _ _ _ _ _ Halloc). cbv zeta.
  apply bind_panic. rewrite Hhead. simpl forEach. apply bind_panic.
  unfold dealNewVote. apply bind_panic. simpl.
  rewrite Hv'. apply bind_panic. unfold receiver.
  rewrite Hcand, cloneMap_id, Htally. reflexivity.
Qed.

(** ** What apply writes to *)

Lemma keeps_ret {A} (P : Heap -> Prop) (Q : A -> Prop) (a : A) :
  Q a -> keeps P Q (ret a).
Proof. intros Ha h Hh. split; [exact Hh |]. intros b Hb. injection Hb as <-. exact Ha. Qed.

Lemma keeps_panic {A} (P : Heap -> Prop) (Q : A -> Prop) : keeps P Q (@panic A).
Proof. intros h Hh. split; [exact Hh | discriminate]. Qed.

Lemma keeps_fail {A} (P : Heap -> Prop) (Q : A -> Prop) e : keeps P Q (@fail A e).
Proof. intros h Hh. split; [exact Hh | discriminate]. Qed.

Lemma keeps_bind {A B} (P : Heap -> Prop) (Q : A -> Prop) (R : B -> Prop)
    (m : Go A) (k : A -> Go B) :
  keeps P Q m -> (forall a, Q a -> keeps P R (k a)) -> keeps P R (bind m k).
Proof.
  intros Hm Hk h Hh. destruct (Hm h Hh) as [Hp Hq]. unfold bind.
  destruct (m h) as [[a | e |] h1]; simpl in *.
  - apply Hk; [apply Hq; reflexivity | exact Hp].
  - split; [exact Hp | discriminate].
  - split; [exact Hp | discriminate].
Qed.

Lemma keeps_weaken {A} (P : Heap -> Prop) (Q Q' : A -> Prop) (m : Go A) :
  keeps P Q m -> (forall a, Q a -> Q' a) -> keeps P Q' m.
Proof. intros Hm Hq h Hh. destruct (Hm h Hh) as [Hp Ha]. split; [exact Hp | auto]. Qed.

Lemma keeps_forEach {A S} (P : Heap -> Prop) (Q : S -> Prop)
    (body : S -> A -> Go S) (xs : list A) :
  (forall acc x, x ∈ xs -> Q acc -> keeps P Q (body acc x)) ->
  forall acc, Q acc -> keeps P Q (forEach body xs acc).
Proof.
  induction xs as [| x rest IH]; intros Hbody acc Hacc; simpl.
  - apply keeps_ret. exact Hacc.
  - apply (keeps_bind P Q Q).
    + apply Hbody; [apply list_elem_of_here | exact Hacc].
    + intros acc' Hacc'. apply IH; [| exact Hacc'].
      intros a y Hy. apply Hbody. apply list_elem_of_further. exact Hy.
Qed.

Section Writes.
Variable T0 : loc -> Prop.
Variable h0 : Heap.

Lemma keeps_bigGet p : keeps (untouched T0 h0) (fun _ => True) (bigGet p).
Proof.
  intros h Hh. unfold bigGet. destruct (h !! p); simpl; split; auto; discriminate.
Qed.

Lemma keeps_bigNew v :
  keeps (untouched T0 h0) (fun p => (length h0 <= p)%nat) (bigNew v).
Proof.
  intros h [Hlen Hold]. unfold bigNew. simpl. split.
  - split; [rewrite length_app; lia |].
    intros p Hp Hout. rewrite lookup_app_l by lia. apply Hold; assumption.
  - intros a Ha. injection Ha as <-. exact Hlen.
Qed.

Lemma keeps_bigSet t v :
  writable T0 h0 t -> keeps (untouched T0 h0) (fun _ => True) (bigSet t v).
Proof.
  intros Ht h [Hlen Hold]. unfold bigSet. destruct (h !! t); simpl;
    [| split; [split; assumption | discriminate]].
  split; [| auto]. split; [rewrite length_insert; exact Hlen |].
  intros p Hp Hout. rewrite list_lookup_insert_ne; [apply Hold; assumption |].
  intros ->. destruct Ht as [Ht | Ht]; [contradiction | lia].
Qed.

Lemma keeps_bigSub t x y :
  writable T0 h0 t -> keeps (untouched T0 h0) (fun _ => True) (bigSub t x y).
Proof.
  intros Ht. unfold bigSub.
  apply (keeps_bind _ (fun _ => True)); [apply keeps_bigGet |]. intros a _.
  apply (keeps_bind _ (fun _ => True)); [apply keeps_bigGet |]. intros b _.
  apply keeps_bigSet. exact Ht.
Qed.

Lemma keeps_bigAdd t x y :
  writable T0 h0 t -> keeps (untouched T0 h0) (fun _ => True) (bigAdd t x y).
Proof.
  intros Ht. unfold bigAdd.
  apply (keeps_bind _ (fun _ => True)); [apply keeps_bigGet |]. intros a _.
  apply (keeps_bind _ (fun _ => True)); [apply keeps_bigGet |]. intros b _.
  apply keeps_bigSet. exact Ht.
Qed.

Lemma keeps_receiver snap c :
  tallyWithin T0 h0 snap ->
  keeps (untouched T0 h0) (writable T0 h0) (receiver (Tally snap) c).
Proof.
  intros Hsnap. unfold receiver. destruct (Tally snap !! c) as [t |] eqn:Ht.
  - apply keeps_ret. exact (Hsnap c t Ht).
  - apply keeps_panic.
Qed.

Lemma keeps_dealNewVote number snap vote :
  tallyWithin T0 h0 snap -> (length h0 <= Stake vote)%nat ->
  keeps (untouched T0 h0) (tallyWithin T0 h0) (dealNewVote number snap vote).
Proof.
  intros Hsnap Hstake. unfold dealNewVote.
  apply (keeps_bind _ (fun _ => True)).
  { destruct (Votes snap !! Voter vote) as [lastVote |]; [| apply keeps_ret; exact I].
    apply (keeps_bind _ (writable T0 h0)); [apply keeps_receiver; exact Hsnap |].
    intros t Ht. apply keeps_bigSub. exact Ht. }
  intros _ _. apply (keeps_bind _ (tallyWithin T0 h0)).
  - destruct (Tally snap !! Candidate vote) as [t |] eqn:Ht.
    + apply (keeps_bind _ (fun _ => True)).
      * apply keeps_bigAdd. exact (Hsnap _ _ Ht).
      * intros _ _. apply keeps_ret. exact Hsnap.
    + apply keeps_ret. intros c t Hc. simpl in Hc.
      apply lookup_insert_Some in Hc as [[_ <-] | [_ Hc]];
        [right; exact Hstake | exact (Hsnap c t Hc)].
  - intros snap1 Hsnap1. apply keeps_ret. exact Hsnap1.
Qed.

Lemma keeps_dealModifiedVote snap txVote :
  tallyWithin T0 h0 snap ->
  keeps (untouched T0 h0) (tallyWithin T0 h0) (dealModifiedVote snap txVote).
Proof.
  intros Hsnap. unfold dealModifiedVote.
  destruct (Votes snap !! Voter txVote) as [lastVote |]; [| apply keeps_ret; exact Hsnap].
  apply (keeps_bind _ (writable T0 h0)); [apply keeps_receiver; exact Hsnap |].
  intros t Ht.
  apply (keeps_bind _ (fun _ => True)); [apply keeps_bigSub; exact Ht |]. intros _ _.
  apply (keeps_bind _ (fun _ => True)); [apply keeps_bigAdd; exact Ht |]. intros _ _.
  apply keeps_ret. exact Hsnap.
Qed.

Lemma keeps_allocVotes (ds : list VoteData) :
  keeps (untouched T0 h0) (Forall (fun v => (length h0 <= Stake v)%nat))
        (allocVotes ds).
Proof.
  unfold allocVotes. apply keeps_forEach; [| constructor].
  intros acc d _ Hacc. unfold allocVote.
  apply (keeps_bind _ (fun v => (length h0 <= Stake v)%nat)).
  - apply (keeps_bind _ (fun p => (length h0 <= p)%nat)); [apply keeps_bigNew |].
    intros p Hp. apply keeps_ret. exact Hp.
  - intros v Hv. apply keeps_ret. apply Forall_app. split; [exact Hacc |].
    constructor; [exact Hv | constructor].
Qed.

Lemma keeps_allocExtra (d : Payload.t) :
  keeps (untouched T0 h0)
        (fun hx => Forall (fun v => (length h0 <= Stake v)%nat)
                          (HeaderExtra.CurrentBlockVotes hx))
        (allocExtra d).
Proof.
  unfold allocExtra.
  apply (keeps_bind _ (Forall (fun v => (length h0 <= Stake v)%nat)));
    [apply keeps_allocVotes |]. intros cur Hcur.
  apply (keeps_bind _ (fun _ => True)).
  - eapply keeps_weaken; [apply keeps_allocVotes | auto].
  - intros pre _. apply keeps_ret. exact Hcur.
Qed.

Lemma keeps_applyHeader `{Externals} snap header :
  tallyWithin T0 h0 snap ->
  keeps (untouched T0 h0) (tallyWithin T0 h0) (applyHeader snap header).
Proof.
  intros Hsnap. unfold applyHeader.
  destruct (ecrecover header); [| apply keeps_fail].
  apply (keeps_bind _ (fun _ => True)).
  { unfold extraPayload. destruct (_ <? _)%nat; [apply keeps_panic | apply keeps_ret; exact I]. }
  intros payload _.
  apply (keeps_bind _ (fun hx => Forall (fun v => (length h0 <= Stake v)%nat)
                                        (HeaderExtra.CurrentBlockVotes hx)));
    [apply keeps_allocExtra |].
  intros hx Hcur. cbv zeta.
  apply (keeps_bind _ (tallyWithin T0 h0)).
  { apply keeps_forEach; [| exact Hsnap].
    intros acc vote Hin Hacc. apply keeps_dealNewVote; [exact Hacc |].
    rewrite Forall_forall in Hcur. apply Hcur. exact Hin. }
  intros s1 Hs1. apply (keeps_bind _ (tallyWithin T0 h0)).
  { apply keeps_forEach; [| exact Hs1].
    intros acc tx _ Hacc. apply keeps_dealModifiedVote. exact Hacc. }
  intros s2 Hs2. apply (keeps_bind _ (tallyWithin T0 h0)).
  { destruct (_ =? 0); [apply keeps_panic |].
    destruct (_ =? 0); apply keeps_ret; exact Hs2. }
  intros s3 Hs3. apply keeps_ret. exact Hs3.
Qed.

Lemma keeps_clearVote snap vote :
  tallyWithin T0 h0 snap ->
  keeps (untouched T0 h0) (tallyWithin T0 h0) (clearVote snap vote).
Proof.
  intros Hsnap. unfold clearVote.
  apply (keeps_bind _ (writable T0 h0)); [apply keeps_receiver; exact Hsnap |].
  intros t Ht.
  apply (keeps_bind _ (fun _ => True)); [apply keeps_bigSub; exact Ht |]. intros _ _.
  apply (keeps_bind _ (fun _ => True)); [apply keeps_bigGet |]. intros v _.
  apply keeps_ret. intros c p Hc. simpl in Hc.
  destruct (v =? 0); simpl in Hc.
  - apply lookup_delete_Some in Hc as [_ Hc]. exact (Hsnap c p Hc).
  - exact (Hsnap c p Hc).
Qed.

Lemma keeps_expireVotes cfg order :
  forall snap,
    tallyWithin T0 h0 snap ->
    keeps (untouched T0 h0) (tallyWithin T0 h0) (expireVotes cfg order snap).
Proof.
  induction order as [| voter rest IH]; intros snap Hsnap; simpl.
  - apply keeps_ret. exact Hsnap.
  - destruct (Voters snap !! voter) as [voteNumber |]; [| apply IH; exact Hsnap].
    destruct (atThreshold cfg snap); [apply keeps_ret; exact Hsnap |].
    destruct (expired cfg snap voteNumber); [| apply IH; exact Hsnap].
    destruct (Votes snap !! voter) as [vote |]; [| apply IH; exact Hsnap].
    apply (keeps_bind _ (tallyWithin T0 h0)); [apply keeps_clearVote; exact Hsnap |].
    intros snap1 Hsnap1. apply IH. exact Hsnap1.
Qed.

Lemma keeps_sweepTally snap :
  keeps (untouched T0 h0) (fun _ => True) (sweepTally snap).
Proof.
  unfold sweepTally. apply keeps_forEach; [| exact I].
  intros acc kv _ _. apply (keeps_bind _ (fun _ => True)); [apply keeps_bigGet |].
  intros v _. destruct (v <=? 0); apply keeps_ret; exact I.
Qed.

Lemma keeps_copy s :
  (forall c t, Tally s !! c = Some t -> T0 t) ->
  keeps (untouched T0 h0) (tallyWithin T0 h0) (copy s).
Proof.
  intros Hs. unfold copy.
  apply (keeps_bind _ (fun _ => True)).
  - apply keeps_forEach; [| exact I]. intros acc kv _ _.
    apply (keeps_bind _ (fun _ => True)); [apply keeps_bigGet |]. intros v _.
    apply (keeps_bind _ (fun _ => True)).
    + eapply keeps_weaken; [apply keeps_bigNew | auto].
    + intros p _. apply keeps_ret. exact I.
  - intros votes _. apply keeps_ret. intros c t Hc. simpl in Hc.
    rewrite cloneMap_id in Hc. left. exact (Hs c t Hc).
Qed.

Lemma keeps_apply `{Externals} order s headers :
  (forall c t, Tally s !! c = Some t -> T0 t) ->
  keeps (untouched T0 h0) (fun _ => True) (apply order s headers).
Proof.
  intros Hs. unfold apply. destruct headers as [| first rest]; [apply keeps_ret; exact I |].
  destruct (negb _); [apply keeps_fail |].
  destruct (negb _); [apply keeps_fail |].
  apply (keeps_bind _ (tallyWithin T0 h0)); [apply keeps_copy; exact Hs |].
  intros c Hc. apply (keeps_bind _ (tallyWithin T0 h0)).
  { apply keeps_forEach; [| exact Hc]. intros acc x _ Hacc.
    apply keeps_applyHeader. exact Hacc. }
  intros a Ha. cbv zeta.
  apply (keeps_bind _ (tallyWithin T0 h0)).
  { apply keeps_expireVotes. exact Ha. }
  intros e _. apply keeps_sweepTally.
Qed.
End Writes.

(** X22.  Whatever [apply] does -- return, fail or panic -- it never
    shrinks the store, and of the cells that existed before it writes to
    none but the tally cells of the source.  In particular the value of
    a vote's stake in the source is unchanged, unless the stake's cell is
    also a tally cell. *)
Theorem apply_writes_only_tally_cells `{Externals} order s headers h :
  (length h <= length (apply order s headers h).2)%nat
  /\ (forall p, (p < length h)%nat ->
        (forall c, Tally s !! c <> Some p) ->
        (apply order s headers h).2 !! p = h !! p)
  /\ (forall k v, Votes s !! k = Some v ->
        (Stake v < length h)%nat ->
        (forall c, Tally s !! c <> Some (Stake v)) ->
        stakeValue (apply order s headers h).2 s k = stakeValue h s k).
Proof.
  assert (untouched (fun p => exists c, Tally s !! c = Some p) h h) as Hstart
    by (split; [lia | auto]).
  assert (forall c t, Tally s !! c = Some t -> exists c', Tally s !! c' = Some t) as Hs
    by eauto.
  destruct (keeps_apply _ h order s headers Hs h Hstart) as [[Hlen Hold] _].
  split; [exact Hlen |]. split.
  - intros p Hp Hout. apply Hold; [exact Hp |]. intros [c Hc]. exact (Hout c Hc).
  - intros k v Hk Hp Hout. unfold stakeValue. rewrite Hk.
    apply Hold; [exact Hp |]. intros [c Hc]. exact (Hout c Hc).
Qed.

(** ** Runs on the test vectors *)

Import Vectors.

(** C1.  From a genesis in which victor votes for carol with a stake of
    10, [apply] with one header in which victor moves his vote to dave
    returns a new snapshot, and the tally of carol in the snapshot that
    was passed in has gone from 10 to 0, while victor's vote in it still
    names carol with a stake of 10: [copy] kept the tally cells of the
    source, and the subtraction wrote to them. *)
Theorem apply_writes_to_source_tally :
  exists (s : Snapshot) (h0 : Heap) (snap : Snapshot) (h1 : Heap),
    genesisVoted = (Done s, h0)
    /\ apply [victor] s [header 1 alice [Byte.x01]] h0 = (Done snap, h1)
    /\ tallyValue h0 s carol = Some 10
    /\ stakeValue h0 s victor = Some 10
    /\ tallyValue h1 s carol = Some 0
    /\ stakeValue h1 s victor = Some 10.
Proof.
  do 4 eexists. split; [vm_compute; reflexivity |].
  split; [vm_compute; reflexivity |].
  repeat split; vm_compute; reflexivity.
Qed.

(** C2.  The payload of the header fails to decode, and [apply] still
    returns a snapshot: the block is counted, the signers are replaced
    by the empty list and the loop start time by zero, the values of the
    zero struct. *)
Theorem apply_ignores_decode_error :
  exists (s : Snapshot) (h0 : Heap) (snap : Snapshot) (h1 : Heap),
    genesis = (Done s, h0)
    /\ extraPayload (header 1 alice [Byte.xff]) h0 = (Done [Byte.xff], h0)
    /\ rlpDecodeBytes [Byte.xff] = (Payload.zero, Some errDecode)
    /\ apply [] s [header 1 alice [Byte.xff]] h0 = (Done snap, h1)
    /\ Number snap = 1
    /\ Signers s = [alice; bob; carol] /\ Signers snap = []
    /\ LoopStartTime s = 1000 /\ LoopStartTime snap = 0.
Proof.
  do 4 eexists. split; [vm_compute; reflexivity |].
  split; [vm_compute; reflexivity |].
  split; [vm_compute; reflexivity |].
  split; [vm_compute; reflexivity |].
  repeat split; vm_compute; reflexivity.
Qed.

(** C4.  A punishment of 5 rewarded by 10 becomes [2^64 - 5].  From a
    genesis with an epoch of 2 blocks: alice misses block 1 (100), the
    count is halved at blocks 2 and 4 (25), she signs block 5 (15), the
    count is halved at block 6 (7) and she signs block 6: her count in
    the returned snapshot is [2^64 - 3]. *)
Theorem reward_wraps_below_zero :
  rewardSigner alice {[alice := 5]} !! alice = Some (two64 - 5)
  /\ exists (s : Snapshot) (h0 : Heap) (snap : Snapshot) (h1 : Heap),
       genesis = (Done s, h0)
       /\ apply [] s [header 1 bob [Byte.x02]; header 2 bob [Byte.x03];
                      header 3 bob [Byte.x03]; header 4 bob [Byte.x03];
                      header 5 alice [Byte.x03]; header 6 alice [Byte.x03]] h0
          = (Done snap, h1)
       /\ Punished snap !! alice = Some (two64 - 3).
Proof.
  split; [vm_compute; reflexivity |].
  do 4 eexists. split; [vm_compute; reflexivity |].
  split; vm_compute; reflexivity.
Qed.

(** C5.  From a genesis without votes, one header in which victor and
    wendy vote for carol with stakes of 10 and 5 leaves a tally of 15
    for carol and stakes that add up to 20: the tally entry of carol
    was created as victor's stake cell itself, and adding wendy's stake
    to the tally raised victor's stake to 15. *)
Theorem apply_breaks_tally_sum :
  exists (s : Snapshot) (h0 : Heap) (snap : Snapshot) (h1 : Heap),
    genesis = (Done s, h0)
    /\ tallyTotal h0 s = stakeTotal h0 s
    /\ apply [victor; wendy] s [header 1 alice [Byte.x00]] h0 = (Done snap, h1)
    /\ tallyTotal h1 snap = 15
    /\ stakeTotal h1 snap = 20
    /\ tallyValue h1 snap carol = Some 15
    /\ stakeFor h1 snap carol = 20.
Proof.
  do 4 eexists. split; [vm_compute; reflexivity |].
  split; [vm_compute; reflexivity |].
  split; [vm_compute; reflexivity |].
  repeat split; vm_compute; reflexivity.
Qed.

Lemma topStakeAddress_punishedOnce :
  topStakeAddress insertionSort [alice; bob] punishedOnce punishedStore
  = (Done [bob], punishedStore)
  /\ topStakeAddress insertionSort [bob; alice] punishedOnce punishedStore
     = (Done [bob], punishedStore).
Proof. split; vm_compute; reflexivity. Qed.

(** C8.  With one slot, alice holding a stake of 10 and a punishment of
    1100, and bob a stake of 1 and no punishment, the queue is bob alone,
    for either visiting order and any draws.  By the formula of the
    design document alice weighs 10 * max (1000 - 1100) 300 = 3000 and
    bob 1000; in the code the [uint64] subtraction wraps around, the
    floor of 300 does not apply, and the credit of alice is -100. *)
Theorem getSignerQueue_floor_missed :
  (forall draws,
      getSignerQueue insertionSort [alice; bob] draws punishedOnce punishedStore
      = (Done [bob], punishedStore))
  /\ (forall draws,
        getSignerQueue insertionSort [bob; alice] draws punishedOnce punishedStore
        = (Done [bob], punishedStore))
  /\ creditWeight 1100 = -100
  /\ specWeight 10 (Punished punishedOnce !! alice) = 3000
  /\ specWeight 1 (Punished punishedOnce !! bob) = 1000.
Proof.
  destruct topStakeAddress_punishedOnce as [Hab Hba].
  split; [| split].
  - intros draws. unfold getSignerQueue, bind. rewrite Hab.
    unfold ret. rewrite shuffle_singleton. reflexivity.
  - intros draws. unfold getSignerQueue, bind. rewrite Hba.
    unfold ret. rewrite shuffle_singleton. reflexivity.
  - repeat split; vm_compute; reflexivity.
Qed.

(** ** Counterexamples and instances *)

(** C9 as stated fails for a header time before the loop start: with
    three signers, a period of 3 and the loop starting at second 3,
    [inturn] at second 0 holds for the second signer, while the index of
    the formula, [(-3 / 3) mod 3 = 2], names the third. *)
Lemma inturn_before_loop_start :
  ~ (forall (s : Snapshot) (signer : Address) (headerTime : Z),
        Signers s <> [] ->
        (inturn s signer headerTime = Done true
         <-> Signers s !! Z.to_nat (((headerTime - LoopStartTime s) / Period (config s))
                                      mod len (Signers s))
             = Some signer)).
Proof.
  intros Hclaim.
  destruct (Hclaim rotating bob 0) as [Hthen _]; [discriminate |].
  specialize (Hthen eq_refl). vm_compute in Hthen. discriminate.
Qed.

(** Two more runs outside the range of [inturn_in_range]: with a
    period of 1 and a difference of [2^64 - 1] the index is negative, and
    with a period of 0 the division fails; [inturn] panics in both. *)
Lemma inturn_panics :
  inturn (mkSnapshot (mkConfig 1 2 3 0 [alice]) 1 1%N [alice; bob; carol]
                     ∅ ∅ ∅ ∅ 0 0)
         alice (two64 - 1) = Panic
  /\ inturn (mkSnapshot (mkConfig 0 2 3 0 [alice]) 1 1%N [alice; bob; carol]
                        ∅ ∅ ∅ ∅ 0 0)
            alice 6 = Panic.
Proof. split; vm_compute; reflexivity. Qed.

(** C3 as stated fails: on the same snapshot, two calls that draw
    different values from the generator return the two candidates in
    different orders. *)
Lemma getSignerQueue_order_follows_draws :
  ~ (forall (sortSort : list TallyItem -> list TallyItem) (order : list Address)
            (draws1 draws2 : nat -> N) (s : Snapshot) (h : Heap),
        getSignerQueue sortSort order draws1 s h
        = getSignerQueue sortSort order draws2 s h).
Proof.
  intros Hclaim.
  specialize (Hclaim insertionSort [alice; bob] (fun _ => 0%N) (fun i => N.of_nat i)
                     twoCandidates punishedStore).
  vm_compute in Hclaim. discriminate.
Qed.


(** C10 on test vectors. *)
Lemma rewardSigner_unpunished_witness :
  ({[alice := 5]} : gmap Address Z) !! bob = None
  /\ rewardSigner bob {[alice := 5]} = {[alice := 5]}
  /\ rewardSigner alice {[alice := 25]} !! bob = None.
Proof.
  split; [reflexivity |]. split.
  - apply (proj1 (rewardSigner_unpunished bob {[alice := 5]})). reflexivity.
  - apply (proj2 (rewardSigner_unpunished alice {[alice := 25]}) bob). reflexivity.
Defined.



(** C9, amended, on a test vector. *)
Lemma inturn_in_range_witness :
  Signers rotating <> []
  /\ inturn rotating bob 6
     = Done (bool_decide
               (Signers rotating
                  !! Z.to_nat (((6 - LoopStartTime rotating) / Period (config rotating))
                               mod len (Signers rotating))
                = Some bob)).
Proof.
  split; [discriminate |].
  apply (inturn_in_range rotating bob 6).
  - discriminate.
  - reflexivity.
  - vm_compute. split; discriminate.
  - reflexivity.
  - reflexivity.
Defined.

(** C3, amended, on a test vector. *)
Lemma getSignerQueue_same_candidates_witness :
  getSignerQueue insertionSort [alice; bob] (fun _ => 0%N) twoCandidates punishedStore
  = (Done [bob; alice], punishedStore)
  /\ exists queue2,
       getSignerQueue insertionSort [alice; bob] (fun i => N.of_nat i)
                      twoCandidates punishedStore
       = (Done queue2, punishedStore)
       /\ [bob; alice] ≡ₚ queue2.
Proof.
  split; [vm_compute; reflexivity |].
  apply (getSignerQueue_same_candidates insertionSort [alice; bob]
           (fun _ => 0%N) (fun i => N.of_nat i) twoCandidates punishedStore).
  vm_compute. reflexivity.
Defined.

Import MoreVectors.

(** ** The further properties on the test vectors *)

(** A property of every entry of a concrete map, by evaluation. *)
Ltac by_evaluation := apply (bool_decide_unpack _); vm_compute; exact I.

Lemma map_Forall_values {V} (P : V -> Prop) (m : gmap Address V) :
  map_Forall (fun _ v => P v) m -> forall k v, m !! k = Some v -> P v.
Proof. intros Hm k v Hk. exact (Hm k v Hk). Qed.

Lemma map_Forall_entries {V} (P : Address -> V -> Prop) (m : gmap Address V) :
  map_Forall P m -> forall k v, m !! k = Some v -> P k v.
Proof. intros Hm k v Hk. exact (Hm k v Hk). Qed.

(** X1 on a test vector. *)
Lemma halvePunished_pointwise_witness :
  halvePunishedIn [alice] (Punished punishedOnce)
  = omap halve (Punished punishedOnce).
Proof.
  apply (proj2 (halvePunished_pointwise (Punished punishedOnce)) [alice]).
  - by_evaluation.
  - intros k [v Hk]. revert k v Hk.
    apply (map_Forall_entries (fun k _ => k ∈ [alice])). by_evaluation.
Defined.

(** X3 on a test vector. *)
Lemma rewardSigner_in_range_witness :
  rewardSigner alice (Punished punishedOnce)
  = <[alice := 1100 - signRewardCredit]> (Punished punishedOnce).
Proof.
  apply (proj1 (rewardSigner_in_range alice (Punished punishedOnce)) 1100).
  - reflexivity.
  - vm_compute. split; [discriminate | reflexivity].
Defined.

(** X4 on a test vector. *)
Lemma inturn_unique_witness :
  inturn rotating bob 6 = Done true /\ Signers rotating !! 1%nat = Some bob
  /\ (0xB0%N : Address) = bob.
Proof.
  split; [reflexivity |]. split; [reflexivity |].
  apply (inturn_unique rotating 0xB0%N bob 6); reflexivity.
Defined.

(** X5 on a test vector. *)
Lemma inturn_periodic_witness :
  inturn rotating bob (6 + Period (config rotating) * len (Signers rotating))
  = inturn rotating bob 6.
Proof.
  apply (inturn_periodic rotating bob 6).
  - reflexivity.
  - vm_compute. split; discriminate.
  - reflexivity.
Defined.

(** X6 on a test vector. *)
Lemma tallyItemOf_weight_witness :
  addr (tallyItemOf lightlyPunished alice 10) = alice
  /\ stake (tallyItemOf lightlyPunished alice 10)
     = specWeight 10 (Punished lightlyPunished !! alice)
  /\ (0 <= 10 ->
      minCalSignerQueueCredit * 10 <= stake (tallyItemOf lightlyPunished alice 10)
                                   <= defaultFullCredit * 10).
Proof.
  apply (tallyItemOf_weight lightlyPunished alice 10).
  apply (map_Forall_values (fun p => 0 <= p <= defaultFullCredit)).
  by_evaluation.
Defined.

(** X7 on a test vector. *)
Lemma sweepTally_keeps_positive_witness :
  exists snap',
    sweepTally crowded crowdedStore = (Done snap', crowdedStore)
    /\ Tally snap' = filter (fun kv => 0 < cellValue crowdedStore kv.2) (Tally crowded)
    /\ Votes snap' = Votes crowded /\ Voters snap' = Voters crowded
    /\ frameOf snap' = frameOf crowded.
Proof.
  apply (sweepTally_keeps_positive crowded crowdedStore).
  intros c. apply (map_Forall_values (fun p => is_Some (crowdedStore !! p))).
  by_evaluation.
Defined.

(** X8 on a test vector. *)
Lemma copy_deep_copies_stakes_witness :
  exists c ext,
    copy crowded crowdedStore = (Done c, crowdedStore ++ ext)
    /\ length ext = size (Votes crowded)
    /\ frameOf c = frameOf crowded /\ Tally c = Tally crowded
    /\ Voters c = Voters crowded
    /\ (forall k, Votes crowded !! k = None -> Votes c !! k = None)
    /\ (forall k v, Votes crowded !! k = Some v ->
          exists v', Votes c !! k = Some v'
                     /\ Voter v' = Voter v /\ Candidate v' = Candidate v
                     /\ (length crowdedStore <= Stake v')%nat
                     /\ (crowdedStore ++ ext) !! Stake v' = crowdedStore !! Stake v).
Proof.
  apply (copy_deep_copies_stakes crowded crowdedStore).
  intros k. apply (map_Forall_values (fun v => is_Some (crowdedStore !! Stake v))).
  by_evaluation.
Defined.


(** X10 on a test vector. *)
Lemma dealModifiedVotes_keep_candidates_witness :
  exists snap' h',
    forEach dealModifiedVote [mkVote victor dave 3%nat] crowded crowdedStore
    = (Done snap', h')
    /\ Voters snap' = Voters crowded
    /\ Tally snap' = Tally crowded
    /\ frameOf snap' = frameOf crowded
    /\ length h' = length crowdedStore
    /\ dom (Votes snap') = dom (Votes crowded)
    /\ (forall k v', Votes snap' !! k = Some v' ->
           exists v, Votes crowded !! k = Some v /\ Candidate v' = Candidate v).
Proof.
  eexists _, _. split; [vm_compute; reflexivity |].
  apply (dealModifiedVotes_keep_candidates [mkVote victor dave 3%nat] crowded crowdedStore).
  vm_compute. reflexivity.
Defined.

(** X11 on a test vector. *)
Lemma apply_errors_witness :
  (errInvalidVotingChain = errInvalidVotingChain /\ @nil Z = []
   /\ exists first, [header 5 alice [Byte.x03]] !! 0%nat = Some first
        /\ ((exists i, gapAt [header 5 alice [Byte.x03]] i)
            \/ Uint64 (Header.Number first) <> wrap64 (Number rotating + 1)))
  \/ exists header0, header0 ∈ [header 5 alice [Byte.x03]]
                     /\ ecrecover header0 = inr errInvalidVotingChain.
Proof.
  apply (apply_errors [] rotating [header 5 alice [Byte.x03]] []).
  vm_compute. reflexivity.
Defined.

(** X12 on a test vector. *)
Lemma apply_done_requires_witness :
  Epoch (config rotating) <> 0
  /\ (forall i header0, [header 2 alice [Byte.x03]] !! i = Some header0 ->
        Uint64 (Header.Number header0) = wrap64 (Number rotating + 1 + Z.of_nat i))
  /\ (forall header0, header0 ∈ [header 2 alice [Byte.x03]] ->
        (exists a, ecrecover header0 = inl a)
        /\ (extraVanity + extraSeal <= length (Header.Extra header0))%nat).
Proof.
  eapply (apply_done_requires [] rotating [header 2 alice [Byte.x03]] []).
  - discriminate.
  - vm_compute. reflexivity.
Defined.

(** X13 on a test vector. *)
Lemma apply_header_fields_witness :
  exists snap' h',
    apply [] rotating ([] ++ [header 2 alice [Byte.x03]]) [] = (Done snap', h')
    /\ config snap' = config rotating
    /\ Number snap' = wrap64 (Number rotating + len (@nil Header.t) + 1)
    /\ Hash snap' = headerHash (header 2 alice [Byte.x03])
    /\ HeaderTime snap' = Uint64 (Header.Time (header 2 alice [Byte.x03]))
    /\ LoopStartTime snap'
       = Payload.LoopStartTime
           (rlpDecodeBytes (payloadBytes (header 2 alice [Byte.x03]))).1
    /\ Signers snap'
       = Payload.SignerQueue
           (rlpDecodeBytes (payloadBytes (header 2 alice [Byte.x03]))).1.
Proof.
  eexists _, _. split; [vm_compute; reflexivity |].
  eapply (apply_header_fields [] rotating [] (header 2 alice [Byte.x03]) []).
  vm_compute. reflexivity.
Defined.

(** X14 on a test vector. *)
Lemma apply_tally_positive_witness :
  exists snap' h',
    apply [victor; wendy] crowded [header 6 alice [Byte.x00]] crowdedStore
    = (Done snap', h')
    /\ forall candidate p, Tally snap' !! candidate = Some p ->
         exists v, h' !! p = Some v /\ 0 < v.
Proof.
  eexists _, _. split; [vm_compute; reflexivity |].
  apply (apply_tally_positive [victor; wendy] crowded
           [header 6 alice [Byte.x00]] crowdedStore).
  - discriminate.
  - vm_compute. reflexivity.
Defined.

(** X15 on a test vector. *)
Lemma apply_keeps_keyed_witness :
  exists snap' h',
    apply [victor; wendy] crowded [header 6 alice [Byte.x00]] crowdedStore
    = (Done snap', h')
    /\ keyed snap'.
Proof.
  eexists _, _. split; [vm_compute; reflexivity |].
  eapply (apply_keeps_keyed [victor; wendy] crowded
           [header 6 alice [Byte.x00]] crowdedStore).
  - unfold keyed. apply (map_Forall_entries (fun k v => Voter v = k)). by_evaluation.
  - vm_compute. reflexivity.
Defined.

(** X16 on a test vector. *)
Lemma apply_punished_witness :
  exists snap' h',
    apply [] rotating [header 2 alice [Byte.x02]] [] = (Done snap', h')
    /\ Punished snap'
       = foldl (punishedStep (config rotating)) (Punished rotating)
               [header 2 alice [Byte.x02]].
Proof.
  eexists _, _. split; [vm_compute; reflexivity |].
  eapply (apply_punished [] rotating [header 2 alice [Byte.x02]] []).
  vm_compute. reflexivity.
Defined.


(** X18 on a test vector. *)
Lemma newSnapshot_ledger_witness :
  exists snap h',
    newSnapshot 1000 cfg 0%N [mkVote victor carol 0%nat] [10] = (Done snap, h')
    /\ (forall c, tallyValue h' snap c
                  = genesisTally [10] c [mkVote victor carol 0%nat])
    /\ (forall p, (p < length [10])%nat -> h' !! p = [10] !! p)
    /\ (forall c t, Tally snap !! c = Some t -> (length [10] <= t)%nat)
    /\ (forall c c' t, Tally snap !! c = Some t -> Tally snap !! c' = Some t -> c = c')
    /\ (forall a, Votes snap !! a = lastVoteOf a [mkVote victor carol 0%nat])
    /\ (forall a, isVoter snap a
                  = bool_decide (is_Some (lastVoteOf a [mkVote victor carol 0%nat])))
    /\ keyed snap.
Proof.
  apply (newSnapshot_ledger 1000 cfg 0%N [mkVote victor carol 0%nat] [10]).
  - apply Forall_forall. by_evaluation.
  - discriminate.
Defined.

(** X19 on a test vector. *)
Lemma newSnapshot_signers_witness :
  exists snap h',
    newSnapshot 1000 cfg 0%N [mkVote victor carol 0%nat] [10] = (Done snap, h')
    /\ len (Signers snap) = MaxSignerCount cfg
    /\ (forall i, (Z.of_nat i < MaxSignerCount cfg) ->
          Signers snap !! i
          = SelfVoteSigners cfg !! (i mod length (SelfVoteSigners cfg))%nat)
    /\ config snap = cfg /\ Number snap = 0 /\ Hash snap = 0%N
    /\ Punished snap = ∅
    /\ HeaderTime snap = wrap64 (wrap64 1000 - 1)
    /\ LoopStartTime snap = GenesisTimestamp cfg.
Proof.
  apply (newSnapshot_signers 1000 cfg 0%N [mkVote victor carol 0%nat] [10]).
  - apply Forall_forall. by_evaluation.
  - discriminate.
  - vm_compute. split; [discriminate | reflexivity].
Defined.

(** X20 on a test vector. *)
Lemma getSignerQueue_takes_the_top_witness :
  punishedStore = punishedStore
  /\ NoDup [bob; alice]
  /\ (forall a, a ∈ [bob; alice] -> a ∈ [alice; bob] /\ is_Some (Tally twoCandidates !! a))
  /\ length [bob; alice]
     = Nat.min (Z.to_nat (toInt64 (MaxSignerCount (config twoCandidates))))
               (length (candidatesIn [alice; bob] twoCandidates))
  /\ (forall a b, a ∈ [bob; alice] -> b ∈ candidatesIn [alice; bob] twoCandidates ->
        b ∉ [bob; alice] ->
        weightOf punishedStore twoCandidates b <= weightOf punishedStore twoCandidates a).
Proof.
  apply (getSignerQueue_takes_the_top insertionSort [alice; bob] (fun _ => 0%N)
           twoCandidates punishedStore [bob; alice] punishedStore).
  - exact insertionSort_contract.
  - by_evaluation.
  - vm_compute. reflexivity.
Defined.

(** X21 on a test vector. *)
Lemma apply_panics_on_orphan_revote_witness :
  exists h', apply [victor] orphaned [header 1 alice [Byte.x01]] orphanedStore
             = (Panic, h').
Proof.
  apply (apply_panics_on_orphan_revote [victor] orphaned (header 1 alice [Byte.x01])
           orphanedStore victor (mkVote victor carol 0%nat) alice dave 5 []).
  - intros k. apply (map_Forall_values (fun v => is_Some (orphanedStore !! Stake v))).
    by_evaluation.
  - reflexivity.
  - reflexivity.
  - reflexivity.
  - reflexivity.
  - vm_compute. lia.
  - reflexivity.
Defined.

(** X22 on a test vector. *)
Lemma apply_writes_only_tally_cells_witness :
  stakeValue (apply [victor; wendy] crowded [header 6 alice [Byte.x00]] crowdedStore).2
             crowded victor
  = stakeValue crowdedStore crowded victor.
Proof.
  apply (proj2 (proj2 (apply_writes_only_tally_cells [victor; wendy] crowded
                         [header 6 alice [Byte.x00]] crowdedStore))
           victor (mkVote victor carol 2%nat)).
  - reflexivity.
  - vm_compute. lia.
  - intros c Hc.
    apply (map_Forall_values (fun p : loc => p <> 2%nat) (Tally crowded)
             ltac:(by_evaluation) c 2%nat Hc).
    reflexivity.
Defined.
